(** * Spinner wheel: rotation and selection engine of [SpinnerApp.tsx]

    A shallow embedding of the angle arithmetic, the option-list handlers
    and the spin state of the [SpinnerApp] React component, with the
    properties its design document states about them.

    Numbers.  The component computes on JavaScript numbers.  The design
    document states its guarantees "given exact arithmetic", so a number is
    an exact rational ([Q]); the operators the code uses ([%], [Math.floor],
    [Math.round]) are given their mathematical meaning on rationals.
    Rounding of IEEE doubles, [NaN] and the infinities are outside the
    model; every division in the modelled code has a non-zero divisor on the
    paths that reach it, which is noted at each one. *)

From Stdlib Require Import ZArith QArith Qround Qabs List Bool Ascii String.
From Stdlib Require Import Lia Lqa.
Import ListNotations.

Local Open Scope Q_scope.

(** ** JavaScript number operators on exact rationals *)

Module JsNum.

(** Integer part, rounding toward zero. *)
Definition Qtrunc (q : Q) : Z :=
  if Qle_bool 0 q then Qfloor q else Qceiling q.

(** [n % m]: the remainder takes the sign of the dividend,
    [n - m * trunc (n / m)].  The code applies it to fractional numbers
    with [m = 360] only, inside [mod]. *)
Definition rem (n m : Q) : Q := n - m * inject_Z (Qtrunc (n / m)).

(** [Math.floor]. *)
Definition floor (x : Q) : Z := Qfloor x.

(** [Math.round]: the nearest integer, a tie going up. *)
Definition round (x : Q) : Z := Qfloor (x + (1 # 2)).

End JsNum.

(** ** Strings

    A JavaScript string is a sequence of UTF-16 code units; [length] counts
    code units and [trim] removes the WhiteSpace and LineTerminator code
    points of ECMAScript from both ends. *)

Module JsString.

Definition t : Type := list N.

(** A literal of the source, from its ASCII text. *)
Fixpoint js (s : string) : t :=
  match s with
  | EmptyString => []
  | String c rest => N_of_ascii c :: js rest
  end.

Definition eq_dec : forall a b : t, {a = b} + {a <> b} := list_eq_dec N.eq_dec.

(** [a === b] on two strings. *)
Definition eqb (a b : t) : bool := if eq_dec a b then true else false.

(** WhiteSpace: TAB, VT, FF, SP, NBSP, ZWNBSP and the category Zs;
    LineTerminator: LF, CR, LS, PS. *)
Definition isWhiteSpace (c : N) : bool :=
  ((c =? 9) || (c =? 10) || (c =? 11) || (c =? 12) || (c =? 13) || (c =? 32)
   || (c =? 160) || (c =? 5760) || ((8192 <=? c) && (c <=? 8202))
   || (c =? 8232) || (c =? 8233) || (c =? 8239) || (c =? 8287)
   || (c =? 12288) || (c =? 65279))%N.

Fixpoint trimStart (s : t) : t :=
  match s with
  | [] => []
  | c :: rest => if isWhiteSpace c then trimStart rest else s
  end.

Definition trimEnd (s : t) : t := rev (trimStart (rev s)).

Definition trim (s : t) : t := trimEnd (trimStart s).

(** Truthiness of a string: only the empty string is falsy. *)
Definition truthy (s : t) : bool :=
  match s with [] => false | _ :: _ => true end.

(** No white space at the front. *)
Definition startsClean (s : t) : Prop :=
  match s with
  | [] => True
  | c :: _ => isWhiteSpace c = false
  end.

End JsString.

Abbreviation jsstring := JsString.t.
Abbreviation js := JsString.js.

(** ** Arrays of strings *)

Module JsArray.

(** [a[i]] for an integer [i]: [undefined] ([None]) outside the array. *)
Definition get (a : list jsstring) (i : Z) : option jsstring :=
  if (i <? 0)%Z then None else nth_error a (Z.to_nat i).

(** [a.indexOf(x)]: the first position holding [x], or [-1]. *)
Fixpoint indexOf (a : list jsstring) (x : jsstring) : Z :=
  match a with
  | [] => (-1)%Z
  | y :: rest =>
      if JsString.eq_dec y x then 0%Z
      else let i := indexOf rest x in
           if (i <? 0)%Z then (-1)%Z else (i + 1)%Z
  end.

(** [a.includes(x)]. *)
Definition includes (a : list jsstring) (x : jsstring) : bool :=
  if in_dec JsString.eq_dec x a then true else false.

(** [a.filter((_, i) => i !== index)]. *)
Fixpoint removeAt (a : list jsstring) (index : nat) : list jsstring :=
  match a, index with
  | [], _ => []
  | _ :: rest, O => rest
  | y :: rest, S k => y :: removeAt rest k
  end.

(** [a[index] = v] on a copy, for an [index] inside the array; the caller
    deals with the positions past the end, where JavaScript grows the
    array. *)
Fixpoint setAt (a : list jsstring) (index : nat) (v : jsstring) : list jsstring :=
  match a, index with
  | [], _ => []
  | _ :: rest, O => v :: rest
  | y :: rest, S k => y :: setAt rest k v
  end.

End JsArray.

(** ** Configuration *)

Record SpinnerConfig : Type := {
  maxOptions : Z;
  minOptions : Z;
  maxOptionLength : Z;
  minRotations : Z;
  maxRotations : Z;
  animationDuration : Z;
  defaultOptions : list jsstring;
  successNotificationDuration : Z
}.

Definition CONFIG : SpinnerConfig := {|
  maxOptions := 12;
  minOptions := 2;
  maxOptionLength := 50;
  minRotations := 3;
  maxRotations := 6;
  animationDuration := 3000;
  defaultOptions := [js "Option 1"; js "Option 2"];
  successNotificationDuration := 3000
|}.

Definition POINTER_AT_DEG : Q := 270.

(** [const mod = (n, m) => ((n % m) + m) % m]; [mod] is a reserved word of
    the notations in scope, hence the underscore. *)
Definition mod_ (n m : Q) : Q := JsNum.rem (JsNum.rem n m + m) m.

(** [options.length] as a number. *)
Definition len (options : list jsstring) : Z := Z.of_nat (List.length options).

(** ** Component state

    The [useState] cells of the component.  [pendingPreservedWinner] has
    type [string | null]; [None] is [null] (and [undefined], which is
    equally falsy). *)

Record State : Type := {
  options : list jsstring;
  newOption : jsstring;
  isSpinning : bool;
  currentRotation : Q;
  formError : jsstring;
  showSuccess : bool;
  pendingPreservedWinner : option jsstring
}.

Definition initialState : State := {|
  options := defaultOptions CONFIG;
  newOption := [];
  isSpinning := false;
  currentRotation := 0;
  formError := [];
  showSuccess := false;
  pendingPreservedWinner := None
|}.

(** ** Winner resolution *)

(** [360 / options.length]; reached only with a non-empty list. *)
Definition segmentAngle (options : list jsstring) : Q :=
  360 / inject_Z (len options).

Definition topWheelAngle (totalDegrees : Q) : Q :=
  let rot := mod_ totalDegrees 360 in
  mod_ (POINTER_AT_DEG - rot) 360.

(** [Math.floor(topWheelAngle / segmentAngle) % options.length]; both
    operands of [%] are integers, so it is the truncating [Z.rem]. *)
Definition winnerIndex (options : list jsstring) (totalDegrees : Q) : Z :=
  Z.rem (JsNum.floor (topWheelAngle totalDegrees / segmentAngle options))
        (len options).

Definition getCurrentWinner (options : list jsstring) (totalDegrees : Q)
  : option jsstring :=
  if (len options =? 0)%Z then Some []
  else JsArray.get options (winnerIndex options totalDegrees).

(** ** Reconciliation effect *)

Definition centerWheelAngle (options : list jsstring) (index : Z) : Q :=
  inject_Z index * segmentAngle options + segmentAngle options / 2.

Definition targetBase (options : list jsstring) (index : Z) : Q :=
  mod_ (POINTER_AT_DEG - centerWheelAngle options index) 360.

(** Lines 100-104 of the effect: the rotation it stores for the label at
    [index]. *)
Definition realign (options : list jsstring) (index : Z) (rotation : Q) : Q :=
  let base := targetBase options index in
  let k := JsNum.round ((rotation - base) / 360) in
  base + 360 * inject_Z k.

Definition pendingTruthy (p : option jsstring) : bool :=
  match p with
  | Some label => JsString.truthy label
  | None => false
  end.

(** The [useEffect] on [[options, pendingPreservedWinner, currentRotation]]. *)
Definition reconcileEffect (st : State) : State :=
  match pendingPreservedWinner st with
  | None => st
  | Some label =>
      if negb (JsString.truthy label) then st
      else
        let index := JsArray.indexOf (options st) label in
        if (index <? 0)%Z then
          {| options := options st; newOption := newOption st;
             isSpinning := isSpinning st;
             currentRotation := currentRotation st;
             formError := formError st; showSuccess := showSuccess st;
             pendingPreservedWinner := None |}
        else
          {| options := options st; newOption := newOption st;
             isSpinning := isSpinning st;
             currentRotation := realign (options st) index (currentRotation st);
             formError := formError st; showSuccess := showSuccess st;
             pendingPreservedWinner := None |}
  end.

(** ** Spin generator

    [Math.random()] is called three times; the three draws, each in
    [[0, 1)], are arguments in call order. *)

Definition spinSegmentIndex (options : list jsstring) (u : Q) : Z :=
  JsNum.floor (u * inject_Z (len options)).

Definition spinMargin (options : list jsstring) : Q :=
  segmentAngle options * (1 # 10).

Definition offsetWithinSegment (options : list jsstring) (u : Q) : Q :=
  spinMargin options + u * (segmentAngle options - 2 * spinMargin options).

Definition targetAngle (options : list jsstring) (u1 u2 : Q) : Q :=
  inject_Z (spinSegmentIndex options u1) * segmentAngle options
  + offsetWithinSegment options u2.

Definition spinCount (u : Q) : Z :=
  (JsNum.floor (u * inject_Z (maxRotations CONFIG - minRotations CONFIG + 1))
   + minRotations CONFIG)%Z.

Definition randomDegrees (options : list jsstring) (u1 u2 u3 : Q) : Q :=
  inject_Z (spinCount u3) * 360 + targetAngle options u1 u2.

(** ** Handlers

    A handler reads the state of the render it was created in and calls each
    setter at most once with a value computed from that state, so it is a
    function from one state to the next.  [setTimeout] callbacks are counted
    in the [World] until they fire. *)

Record World : Type := {
  view : State;
  spinTimeouts : nat;
  successTimeouts : nat
}.

Definition initialWorld : World :=
  {| view := initialState; spinTimeouts := 0; successTimeouts := 0 |}.

(** The new rotation is the exact sum; the code rounds it to a double. *)
Definition launchSpin (w : World) (u1 u2 u3 : Q) : World :=
  let st := view w in
  if isSpinning st || (len (options st) <? minOptions CONFIG)%Z then w
  else
    let spinDegrees := randomDegrees (options st) u1 u2 u3 in
    {| view :=
         {| options := options st; newOption := newOption st;
            isSpinning := true;
            currentRotation := currentRotation st + spinDegrees;
            formError := formError st; showSuccess := showSuccess st;
            pendingPreservedWinner := pendingPreservedWinner st |};
       spinTimeouts := S (spinTimeouts w);
       successTimeouts := successTimeouts w |}.

(** The callback of the timeout set by [launchSpin]. *)
Definition spinTimeout (w : World) : World :=
  let st := view w in
  {| view :=
       {| options := options st; newOption := newOption st;
          isSpinning := false;
          currentRotation := currentRotation st;
          formError := formError st; showSuccess := showSuccess st;
          pendingPreservedWinner := pendingPreservedWinner st |};
     spinTimeouts := pred (spinTimeouts w);
     successTimeouts := successTimeouts w |}.

(** The messages of [validateOption]; the two template literals are shown
    with the values of [CONFIG] filled in. *)
Definition msgEmpty : jsstring := js "Option cannot be empty".
Definition msgTooLong : jsstring := js "Option must be 50 characters or less".
Definition msgDuplicate : jsstring := js "This option already exists".
Definition msgFull : jsstring := js "Maximum 12 options allowed".

Definition validateOption (options : list jsstring) (value : jsstring)
  (skipDuplicateCheck : bool) : jsstring :=
  let trimmed := JsString.trim value in
  if negb (JsString.truthy trimmed) then msgEmpty
  else if (Z.of_nat (List.length trimmed) >? maxOptionLength CONFIG)%Z
  then msgTooLong
  else if negb skipDuplicateCheck && JsArray.includes options trimmed
  then msgDuplicate
  else if (len options >=? maxOptions CONFIG)%Z then msgFull
  else [].

Definition handleSubmit (w : World) : World :=
  let st := view w in
  let error := validateOption (options st) (newOption st) false in
  if JsString.truthy error then
    {| view :=
         {| options := options st; newOption := newOption st;
            isSpinning := isSpinning st;
            currentRotation := currentRotation st;
            formError := error; showSuccess := showSuccess st;
            pendingPreservedWinner := pendingPreservedWinner st |};
       spinTimeouts := spinTimeouts w;
       successTimeouts := successTimeouts w |}
  else
    {| view :=
         {| options := options st ++ [JsString.trim (newOption st)];
            newOption := [];
            isSpinning := isSpinning st;
            currentRotation := currentRotation st;
            formError := []; showSuccess := true;
            pendingPreservedWinner :=
              getCurrentWinner (options st) (currentRotation st) |};
       spinTimeouts := spinTimeouts w;
       successTimeouts := S (successTimeouts w) |}.

(** The callback of the timeout set by [handleSubmit]. *)
Definition successTimeout (w : World) : World :=
  let st := view w in
  {| view :=
       {| options := options st; newOption := newOption st;
          isSpinning := isSpinning st;
          currentRotation := currentRotation st;
          formError := formError st; showSuccess := false;
          pendingPreservedWinner := pendingPreservedWinner st |};
     spinTimeouts := spinTimeouts w;
     successTimeouts := pred (successTimeouts w) |}.

Definition handleInputChange (w : World) (value : jsstring) : World :=
  let st := view w in
  {| view :=
       {| options := options st; newOption := value;
          isSpinning := isSpinning st;
          currentRotation := currentRotation st;
          formError := if JsString.truthy (formError st) then [] else formError st;
          showSuccess := showSuccess st;
          pendingPreservedWinner := pendingPreservedWinner st |};
     spinTimeouts := spinTimeouts w;
     successTimeouts := successTimeouts w |}.

Definition handleRemoveOption (w : World) (index : nat) : World :=
  let st := view w in
  {| view :=
       {| options := JsArray.removeAt (options st) index;
          newOption := newOption st;
          isSpinning := isSpinning st;
          currentRotation := currentRotation st;
          formError := formError st; showSuccess := showSuccess st;
          pendingPreservedWinner := pendingPreservedWinner st |};
     spinTimeouts := spinTimeouts w;
     successTimeouts := successTimeouts w |}.

(** What a call of [handleEditOption] does.  [EditOutside]: the index lies
    past the end of the list and the assignment would leave holes in the
    array, which the model of [string[]] does not represent; the handler is
    bound to the edit button of a listed item only. *)
Inductive EditOutcome : Type :=
  | EditReturned
  | EditAlerted (message : jsstring)
  | EditStored (w' : World)
  | EditOutside.

(** [answer] is what [prompt] returns: [None] when it is dismissed. *)
Definition handleEditOption (w : World) (index : nat) (answer : option jsstring)
  : EditOutcome :=
  let st := view w in
  let current := nth_error (options st) index in
  match answer with
  | None => EditReturned
  | Some updatedText =>
      let trimmed := JsString.trim updatedText in
      if negb (JsString.truthy trimmed) then EditReturned
      else
        let same :=
          match current with
          | Some c => JsString.eqb trimmed c
          | None => false
          end in
        let error := validateOption (options st) trimmed same in
        if JsString.truthy error then EditAlerted error
        else if (index <=? List.length (options st))%nat then
          let updated :=
            if (index =? List.length (options st))%nat
            then options st ++ [trimmed]
            else JsArray.setAt (options st) index trimmed in
          EditStored
            {| view :=
                 {| options := updated; newOption := newOption st;
                    isSpinning := isSpinning st;
                    currentRotation := currentRotation st;
                    formError := formError st; showSuccess := showSuccess st;
                    pendingPreservedWinner := pendingPreservedWinner st |};
               spinTimeouts := spinTimeouts w;
               successTimeouts := successTimeouts w |}
        else EditOutside
  end.

Definition handleClearOptions (w : World) : World :=
  let st := view w in
  {| view :=
       {| options := []; newOption := [];
          isSpinning := isSpinning st;
          currentRotation := 0;
          formError := []; showSuccess := showSuccess st;
          pendingPreservedWinner := None |};
     spinTimeouts := spinTimeouts w;
     successTimeouts := successTimeouts w |}.

(** The effect runs after the render that follows a handler. *)
Definition commit (w : World) : World :=
  {| view := reconcileEffect (view w);
     spinTimeouts := spinTimeouts w;
     successTimeouts := successTimeouts w |}.

(** ** Executions

    One step per user action or timer expiry.  A draw of [Math.random()]
    lies in [[0, 1)]; a timeout fires only once it has been set; the edit
    and remove buttons exist for listed items only. *)

Definition unitDraw (u : Q) : Prop := 0 <= u /\ u < 1.

Inductive Step : World -> World -> Prop :=
  | StepSpin w u1 u2 u3 :
      unitDraw u1 -> unitDraw u2 -> unitDraw u3 ->
      Step w (commit (launchSpin w u1 u2 u3))
  | StepSpinTimeout w :
      (0 < spinTimeouts w)%nat -> Step w (commit (spinTimeout w))
  | StepSubmit w : Step w (commit (handleSubmit w))
  | StepSuccessTimeout w :
      (0 < successTimeouts w)%nat -> Step w (commit (successTimeout w))
  | StepInput w value : Step w (commit (handleInputChange w value))
  | StepRemove w index :
      (index < List.length (options (view w)))%nat ->
      Step w (commit (handleRemoveOption w index))
  | StepEdit w index answer w' :
      (index < List.length (options (view w)))%nat ->
      handleEditOption w index answer = EditStored w' ->
      Step w (commit w')
  | StepClear w : Step w (commit (handleClearOptions w)).

Inductive Reachable : World -> Prop :=
  | ReachInit : Reachable initialWorld
  | ReachStep w w' : Reachable w -> Step w w' -> Reachable w'.

(** ** Calls and their completion

    The error codes of the design document, and the two ways a call can
    end.  The body of [getCurrentWinner] holds no [throw] and calls only
    total operations, so a call of it always returns. *)

Inductive ErrorCode : Type :=
  | EmptyOption | TooLong | DuplicateOption | ListFull
  | BelowMinimum | InsufficientOptions | InvalidState.

Inductive Completion (A : Type) : Type :=
  | Returned (value : A)
  | Failed (code : ErrorCode).

Arguments Returned {A} value.
Arguments Failed {A} code.

Definition getCurrentWinnerCall (options : list jsstring) (totalDegrees : Q)
  : Completion (option jsstring) :=
  Returned (getCurrentWinner options totalDegrees).

(** ** The design document's formulas

    These follow the words of the design document, to be compared with the
    definitions above, which follow the code. *)

Module Design.

(** "True modulo": the representative of [x] modulo 360 in [[0, 360)]. *)
Definition normalize (x : Q) : Q := x - 360 * inject_Z (Qfloor (x / 360)).

(** [floor(normalize(POINTER_ANGLE - normalize(r)) / (360/n)) mod n]. *)
Definition winnerIndex (n : Z) (r : Q) : Z :=
  (Qfloor (normalize (270 - normalize r) / (360 / inject_Z n)) mod n)%Z.

(** The label of the segment the generator chose. *)
Definition chosenOption (options : list jsstring) (u1 : Q) : option jsstring :=
  JsArray.get options (spinSegmentIndex options u1).

End Design.

(** What every reachable world satisfies: the spinning flag is set
    exactly while the one timeout of a spin is outstanding, no pending
    label is left over once the effect has run, and no label is empty. *)
Record Invariant (w : World) : Prop := {
  inv_timeouts : spinTimeouts w = if isSpinning (view w) then 1%nat else 0%nat;
  inv_pending : pendingTruthy (pendingPreservedWinner (view w)) = false;
  inv_labels : Forall (fun label => label <> []) (options (view w))
}.

(** ** Rendering

    What the JSX computes from the state: the colour stops of the
    [conic-gradient], the rotation of each label, and the [disabled]
    attributes of the buttons.

    Two frames meet here.  CSS measures the angles of a [conic-gradient]
    clockwise from 12 o'clock; it measures those of [rotate(...)], which
    places the labels and in which [POINTER_AT_DEG] is given (270 is the
    top), clockwise from 3 o'clock.  [segmentStart], [segmentEnd] are
    angles of the first frame, [textRotation] and [topWheelAngle] of the
    second. *)

(** [startAngle = segAngle * index], an angle of the gradient. *)
Definition segmentStart (options : list jsstring) (index : Z) : Q :=
  segmentAngle options * inject_Z index.

(** [endAngle = segAngle * (index + 1)], an angle of the gradient. *)
Definition segmentEnd (options : list jsstring) (index : Z) : Q :=
  segmentAngle options * (inject_Z index + 1).

(** [hue = (360 / options.length) * index] *)
Definition segmentHue (options : list jsstring) (index : Z) : Q :=
  360 / inject_Z (len options) * inject_Z index.

(** [textRotation = segmentAngle * index + segmentAngle / 2], an angle of
    [rotate(...)]. *)
Definition textRotation (options : list jsstring) (index : Z) : Q :=
  segmentAngle options * inject_Z index + segmentAngle options / 2.

(** Rendering convention of CSS, not code of the component: the point of
    the wheel at angle [wheelAngle] of the [rotate(...)] frame has the
    gradient angle [wheelAngle + 90], reduced to one turn. *)
Definition gradientAngle (wheelAngle : Q) : Q := mod_ (wheelAngle + 90) 360.

(** The number of the colour stop that is painted under the pointer at a
    rotation: the stop that holds the gradient angle of the wheel angle
    under the pointer. *)
Definition stopUnderPointer (options : list jsstring) (rotation : Q) : Z :=
  Qfloor (gradientAngle (topWheelAngle rotation) / segmentAngle options).

(** [disabled] of the SPIN button. *)
Definition spinDisabled (st : State) : bool :=
  isSpinning st || (len (options st) <? minOptions CONFIG)%Z.

(** [disabled] of the Add Option button. *)
Definition addDisabled (st : State) : bool :=
  negb (JsString.truthy (JsString.trim (newOption st)))
  || (len (options st) >=? maxOptions CONFIG)%Z.

(** The "slots left" count of the helper text. *)
Definition slotsLeft (st : State) : Z :=
  (maxOptions CONFIG - len (options st))%Z.

(** Whether the "Add at least 2 options" warning is rendered. *)
Definition minWarningShown (st : State) : bool :=
  (len (options st) <? minOptions CONFIG)%Z.

(** ** Well-formed option lists *)

Definition labelOk (label : jsstring) : Prop :=
  label <> []
  /\ (Z.of_nat (List.length label) <= maxOptionLength CONFIG)%Z
  /\ JsString.trim label = label.

Record ListOk (options : list jsstring) : Prop := {
  ok_distinct : NoDup options;
  ok_count : (len options <= maxOptions CONFIG)%Z;
  ok_labels : Forall labelOk options
}.

(** ** The patched component

    The second copy of the component ("SpinnerApp.tsx (patched)").  It has
    the cells of the first, grouped in [base], and two more: the announced
    [winner] and the [showResult] flag of the result dialog.  Its [mod],
    [getCurrentWinner], [randomDegrees], reconciliation effect,
    [handleSubmit] and [handleInputChange] have the text of the first
    copy; its [validateOption] makes the same four checks without the
    option to skip the duplicate check.  It differs in [launchSpin] (the
    winner is announced when the timeout fires), in [handleRemoveOption]
    (guarded, and it asks for the winner to be preserved) and in
    [handleClearOptions] (back to the default options); there is no edit
    handler. *)

Module Patched.

Record PState : Type := {
  base : State;
  winner : option jsstring;
  showResult : bool
}.

(** A pending spin timeout holds what its callback closes over: the
    [options] of the render that launched the spin, read by
    [getCurrentWinner], and [newRotation]. *)
Record PWorld : Type := {
  pview : PState;
  spinCallbacks : list (list jsstring * Q);
  successCallbacks : nat
}.

Definition initialPWorld : PWorld :=
  {| pview := {| base := initialState; winner := None; showResult := false |};
     spinCallbacks := [];
     successCallbacks := 0 |}.

Definition validateOption (options : list jsstring) (value : jsstring)
  : jsstring :=
  if negb (JsString.truthy (JsString.trim value)) then msgEmpty
  else if (Z.of_nat (List.length (JsString.trim value))
           >? maxOptionLength CONFIG)%Z
  then msgTooLong
  else if JsArray.includes options (JsString.trim value) then msgDuplicate
  else if (len options >=? maxOptions CONFIG)%Z then msgFull
  else [].

Definition launchSpin (pw : PWorld) (u1 u2 u3 : Q) : PWorld :=
  let st := base (pview pw) in
  if isSpinning st || (len (options st) <? minOptions CONFIG)%Z then pw
  else
    let spinDegrees := randomDegrees (options st) u1 u2 u3 in
    let newRotation := currentRotation st + spinDegrees in
    {| pview :=
         {| base :=
              {| options := options st; newOption := newOption st;
                 isSpinning := true;
                 currentRotation := newRotation;
                 formError := formError st; showSuccess := showSuccess st;
                 pendingPreservedWinner := pendingPreservedWinner st |};
            winner := None;
            showResult := false |};
       spinCallbacks := spinCallbacks pw ++ [(options st, newRotation)];
       successCallbacks := successCallbacks pw |}.

(** The earliest pending spin timeout fires. *)
Definition spinTimeout (pw : PWorld) : PWorld :=
  match spinCallbacks pw with
  | [] => pw
  | (launchOptions, newRotation) :: rest =>
      let st := base (pview pw) in
      {| pview :=
           {| base :=
                {| options := options st; newOption := newOption st;
                   isSpinning := false;
                   currentRotation := currentRotation st;
                   formError := formError st; showSuccess := showSuccess st;
                   pendingPreservedWinner := pendingPreservedWinner st |};
              winner := getCurrentWinner launchOptions newRotation;
              showResult := true |};
         spinCallbacks := rest;
         successCallbacks := successCallbacks pw |}
  end.

Definition handleSubmit (pw : PWorld) : PWorld :=
  let st := base (pview pw) in
  let error := validateOption (options st) (newOption st) in
  if JsString.truthy error then
    {| pview :=
         {| base :=
              {| options := options st; newOption := newOption st;
                 isSpinning := isSpinning st;
                 currentRotation := currentRotation st;
                 formError := error; showSuccess := showSuccess st;
                 pendingPreservedWinner := pendingPreservedWinner st |};
            winner := winner (pview pw);
            showResult := showResult (pview pw) |};
       spinCallbacks := spinCallbacks pw;
       successCallbacks := successCallbacks pw |}
  else
    {| pview :=
         {| base :=
              {| options := options st ++ [JsString.trim (newOption st)];
                 newOption := [];
                 isSpinning := isSpinning st;
                 currentRotation := currentRotation st;
                 formError := []; showSuccess := true;
                 pendingPreservedWinner :=
                   getCurrentWinner (options st) (currentRotation st) |};
            winner := winner (pview pw);
            showResult := showResult (pview pw) |};
       spinCallbacks := spinCallbacks pw;
       successCallbacks := S (successCallbacks pw) |}.

Definition successTimeout (pw : PWorld) : PWorld :=
  let st := base (pview pw) in
  {| pview :=
       {| base :=
            {| options := options st; newOption := newOption st;
               isSpinning := isSpinning st;
               currentRotation := currentRotation st;
               formError := formError st; showSuccess := false;
               pendingPreservedWinner := pendingPreservedWinner st |};
          winner := winner (pview pw);
          showResult := showResult (pview pw) |};
     spinCallbacks := spinCallbacks pw;
     successCallbacks := pred (successCallbacks pw) |}.

Definition handleInputChange (pw : PWorld) (value : jsstring) : PWorld :=
  let st := base (pview pw) in
  {| pview :=
       {| base :=
            {| options := options st; newOption := value;
               isSpinning := isSpinning st;
               currentRotation := currentRotation st;
               formError :=
                 if JsString.truthy (formError st) then [] else formError st;
               showSuccess := showSuccess st;
               pendingPreservedWinner := pendingPreservedWinner st |};
          winner := winner (pview pw);
          showResult := showResult (pview pw) |};
     spinCallbacks := spinCallbacks pw;
     successCallbacks := successCallbacks pw |}.

Definition handleRemoveOption (pw : PWorld) (index : nat) : PWorld :=
  let st := base (pview pw) in
  if (len (options st) >? minOptions CONFIG)%Z then
    {| pview :=
         {| base :=
              {| options := JsArray.removeAt (options st) index;
                 newOption := newOption st;
                 isSpinning := isSpinning st;
                 currentRotation := currentRotation st;
                 formError := formError st; showSuccess := showSuccess st;
                 pendingPreservedWinner :=
                   getCurrentWinner (options st) (currentRotation st) |};
            winner := winner (pview pw);
            showResult := showResult (pview pw) |};
       spinCallbacks := spinCallbacks pw;
       successCallbacks := successCallbacks pw |}
  else pw.

Definition handleClearOptions (pw : PWorld) : PWorld :=
  let st := base (pview pw) in
  {| pview :=
       {| base :=
            {| options := defaultOptions CONFIG; newOption := [];
               isSpinning := isSpinning st;
               currentRotation := 0;
               formError := []; showSuccess := showSuccess st;
               pendingPreservedWinner := None |};
          winner := winner (pview pw);
          showResult := showResult (pview pw) |};
     spinCallbacks := spinCallbacks pw;
     successCallbacks := successCallbacks pw |}.

Definition closeResultModal (pw : PWorld) : PWorld :=
  {| pview :=
       {| base := base (pview pw);
          winner := winner (pview pw);
          showResult := false |};
     spinCallbacks := spinCallbacks pw;
     successCallbacks := successCallbacks pw |}.

(** The effect, which has the text of the first copy, after a render. *)
Definition commit (pw : PWorld) : PWorld :=
  {| pview :=
       {| base := reconcileEffect (base (pview pw));
          winner := winner (pview pw);
          showResult := showResult (pview pw) |};
     spinCallbacks := spinCallbacks pw;
     successCallbacks := successCallbacks pw |}.

(** [disabled] of a remove button. *)
Definition removeDisabled (st : State) : bool :=
  (len (options st) <=? minOptions CONFIG)%Z.

(** One step per user action or timer expiry; [launchSpin] is bound to the
    SPIN button and to "Spin Again" of the result dialog. *)
Inductive Step : PWorld -> PWorld -> Prop :=
  | StepSpin pw u1 u2 u3 :
      unitDraw u1 -> unitDraw u2 -> unitDraw u3 ->
      Step pw (commit (launchSpin pw u1 u2 u3))
  | StepSpinTimeout pw :
      spinCallbacks pw <> [] -> Step pw (commit (spinTimeout pw))
  | StepSubmit pw : Step pw (commit (handleSubmit pw))
  | StepSuccessTimeout pw :
      (0 < successCallbacks pw)%nat -> Step pw (commit (successTimeout pw))
  | StepInput pw value : Step pw (commit (handleInputChange pw value))
  | StepRemove pw index :
      (index < List.length (options (base (pview pw))))%nat ->
      Step pw (commit (handleRemoveOption pw index))
  | StepClear pw : Step pw (commit (handleClearOptions pw))
  | StepClose pw : Step pw (commit (closeResultModal pw)).

Inductive Reachable : PWorld -> Prop :=
  | ReachInit : Reachable initialPWorld
  | ReachStep pw pw' : Reachable pw -> Step pw pw' -> Reachable pw'.

(** What every reachable world of the patched component satisfies. *)
Record PInvariant (pw : PWorld) : Prop := {
  pinv_callbacks :
    List.length (spinCallbacks pw)
    = if isSpinning (base (pview pw)) then 1%nat else 0%nat;
  pinv_pending :
    pendingTruthy (pendingPreservedWinner (base (pview pw))) = false;
  pinv_list : ListOk (options (base (pview pw)));
  pinv_minimum : (minOptions CONFIG <= len (options (base (pview pw))))%Z
}.

End Patched.

(** ** Proof automation *)

(** Push [inject_Z] through integer operations, then linear arithmetic. *)
Ltac push_inject :=
  rewrite ?inject_Z_plus, ?inject_Z_mult, ?inject_Z_opp in *;
  change (inject_Z 0) with 0 in *;
  change (inject_Z 1) with 1 in *.

Ltac qlinear := push_inject; lra.

(** * Properties *)

(** ** Floor, truncation and remainder *)

Section NumberFacts.

Lemma Qfloor_unique (x : Q) (k : Z) :
  inject_Z k <= x -> x < inject_Z (k + 1) -> Qfloor x = k.
Proof.
  intros Hlo Hhi.
  pose proof (Qfloor_le x) as Hfl.
  pose proof (Qlt_floor x) as Hfu.
  assert (Qfloor x < k + 1)%Z.
  { rewrite Zlt_Qlt. eapply Qle_lt_trans; eassumption. }
  assert (k < Qfloor x + 1)%Z.
  { rewrite Zlt_Qlt. eapply Qle_lt_trans; eassumption. }
  lia.
Qed.

Lemma Qfloor_div_unique (x m : Q) (k : Z) :
  0 < m -> m * inject_Z k <= x -> x < m * inject_Z (k + 1) ->
  Qfloor (x / m) = k.
Proof.
  intros Hm Hlo Hhi.
  apply Qfloor_unique.
  - apply Qle_shift_div_l; [exact Hm|]. now rewrite Qmult_comm.
  - apply Qlt_shift_div_r; [exact Hm|]. now rewrite Qmult_comm.
Qed.

Lemma Qfloor_div_bounds (x m : Q) :
  0 < m ->
  m * inject_Z (Qfloor (x / m)) <= x /\ x < m * inject_Z (Qfloor (x / m) + 1).
Proof.
  intros Hm.
  assert (Hx : x == x / m * m).
  { rewrite Qmult_comm, Qmult_div_r; [reflexivity|]. intro E; rewrite E in Hm.
    discriminate. }
  split.
  - rewrite Hx at 2. rewrite Qmult_comm.
    apply Qmult_le_compat_r; [apply Qfloor_le | now apply Qlt_le_weak].
  - rewrite Hx at 1. rewrite (Qmult_comm m).
    apply Qmult_lt_compat_r; [exact Hm | apply Qlt_floor].
Qed.

Lemma Qtrunc_nonneg (q : Q) : 0 <= q -> JsNum.Qtrunc q = Qfloor q.
Proof.
  intros H. unfold JsNum.Qtrunc.
  now apply Qle_bool_iff in H; rewrite H.
Qed.

Lemma Qtrunc_neg (q : Q) : q < 0 -> JsNum.Qtrunc q = Qceiling q.
Proof.
  intros H. unfold JsNum.Qtrunc.
  destruct (Qle_bool 0 q) eqn:E; [|reflexivity].
  apply Qle_bool_iff in E. exfalso. apply (Qlt_irrefl q).
  eapply Qlt_le_trans; eassumption.
Qed.

End NumberFacts.

#[global] Instance Qtrunc_comp : Proper (Qeq ==> eq) JsNum.Qtrunc.
Proof.
  intros x y E. unfold JsNum.Qtrunc.
  assert (Hb : Qle_bool 0 x = Qle_bool 0 y) by now rewrite E.
  rewrite Hb. destruct (Qle_bool 0 y); now rewrite E.
Qed.

#[global] Instance rem_comp : Proper (Qeq ==> Qeq ==> Qeq) JsNum.rem.
Proof.
  intros x y E m m' E'. unfold JsNum.rem.
  assert (Ht : JsNum.Qtrunc (x / m) = JsNum.Qtrunc (y / m')).
  { apply Qtrunc_comp. now rewrite E, E'. }
  rewrite Ht. now rewrite E, E'.
Qed.

#[global] Instance round_comp : Proper (Qeq ==> eq) JsNum.round.
Proof.
  intros x y E. unfold JsNum.round. now rewrite E.
Qed.

#[global] Instance mod_comp : Proper (Qeq ==> Qeq ==> Qeq) mod_.
Proof.
  intros x y E m m' E'. unfold mod_. now rewrite E, E'.
Qed.

Section RemainderFacts.

Variable m : Q.
Hypothesis m_pos : 0 < m.

Lemma divisor_nonzero : ~ m == 0.
Proof. intro E. rewrite E in m_pos. discriminate. Qed.

(** A dividend in [[0, m)] is its own remainder. *)
Lemma rem_small (x : Q) : 0 <= x -> x < m -> JsNum.rem x m == x.
Proof.
  intros Hlo Hhi. unfold JsNum.rem.
  assert (Hq : 0 <= x / m).
  { apply Qle_shift_div_l; [exact m_pos|]. lra. }
  rewrite (Qtrunc_nonneg _ Hq).
  rewrite (Qfloor_div_unique x m 0 m_pos); qlinear.
Qed.

(** [mod_] is the mathematical modulo. *)
Lemma mod_floor (x : Q) :
  mod_ x m == x - m * inject_Z (Qfloor (x / m)).
Proof.
  destruct (Qfloor_div_bounds x m m_pos) as [Hlo Hhi].
  set (f := Qfloor (x / m)) in *.
  push_inject.
  unfold mod_.
  destruct (Qlt_le_dec (x / m) 0) as [Hneg | Hpos].
  - (* negative quotient: the inner remainder lies in (-m, 0] *)
    assert (Hr : JsNum.rem x m == x - m * inject_Z (Qceiling (x / m))).
    { unfold JsNum.rem. now rewrite (Qtrunc_neg _ Hneg). }
    rewrite Hr.
    pose proof (Qle_ceiling (x / m)) as Hc.
    pose proof (Qceiling_lt (x / m)) as Hc'.
    pose proof (Qfloor_le (x / m)) as Hf.
    pose proof (Qlt_floor (x / m)) as Hf'.
    fold f in Hf, Hf'.
    set (c := Qceiling (x / m)) in *.
    assert (Hcf : (c = f \/ c = f + 1)%Z).
    { assert (f <= c)%Z by (rewrite Zle_Qle; eapply Qle_trans; eassumption).
      assert (c - 1 < f + 1)%Z by (rewrite Zlt_Qlt; eapply Qlt_trans; eassumption).
      lia. }
    destruct Hcf as [E | E]; rewrite E.
    + (* the quotient is an integer *)
      assert (Hx : x == m * inject_Z f).
      { apply Qle_antisym; [|exact Hlo].
        rewrite E in Hc.
        setoid_replace x with (x / m * m).
        - rewrite (Qmult_comm m). apply Qmult_le_compat_r; [exact Hc|].
          now apply Qlt_le_weak.
        - rewrite Qmult_comm, Qmult_div_r; [reflexivity | exact divisor_nonzero]. }
      setoid_replace (x - m * inject_Z f + m) with m by lra.
      unfold JsNum.rem.
      assert (Ht : JsNum.Qtrunc (m / m) = 1%Z).
      { transitivity (JsNum.Qtrunc 1); [|reflexivity].
        apply Qtrunc_comp. field. exact divisor_nonzero. }
      rewrite Ht. qlinear.
    + push_inject.
      setoid_replace (x - m * (inject_Z f + 1) + m) with (x - m * inject_Z f)
        by ring.
      apply rem_small; lra.
  - (* non-negative quotient: the inner remainder lies in [0, m) *)
    assert (Hr : JsNum.rem x m == x - m * inject_Z f).
    { unfold JsNum.rem. now rewrite (Qtrunc_nonneg _ Hpos). }
    rewrite Hr.
    remember (x - m * inject_Z f) as r eqn:Er.
    assert (Hr0 : 0 <= r) by (subst r; lra).
    assert (Hr1 : r < m) by (subst r; lra).
    unfold JsNum.rem.
    assert (Hq : 0 <= (r + m) / m).
    { apply Qle_shift_div_l; [exact m_pos|]. lra. }
    rewrite (Qtrunc_nonneg _ Hq).
    rewrite (Qfloor_div_unique (r + m) m 1 m_pos); qlinear.
Qed.

Lemma mod_range (x : Q) : 0 <= mod_ x m /\ mod_ x m < m.
Proof.
  rewrite mod_floor.
  destruct (Qfloor_div_bounds x m m_pos) as [Hlo Hhi].
  qlinear.
Qed.

Lemma mod_congruent (x : Q) : exists k : Z, mod_ x m == x + m * inject_Z k.
Proof.
  exists (- Qfloor (x / m))%Z. rewrite mod_floor, inject_Z_opp. ring.
Qed.

(** A value of [[0, m)] is a fixed point. *)
Lemma mod_small (x : Q) : 0 <= x -> x < m -> mod_ x m == x.
Proof.
  intros Hlo Hhi. rewrite mod_floor.
  rewrite (Qfloor_div_unique x m 0 m_pos); qlinear.
Qed.

(** Whole multiples of [m] are absorbed. *)
Lemma mod_add_multiple (x : Q) (k : Z) : mod_ (x + m * inject_Z k) m == mod_ x m.
Proof.
  rewrite !mod_floor.
  destruct (Qfloor_div_bounds x m m_pos) as [Hlo Hhi].
  rewrite (Qfloor_div_unique (x + m * inject_Z k) m (Qfloor (x / m) + k) m_pos).
  - qlinear.
  - qlinear.
  - qlinear.
Qed.

End RemainderFacts.

(** ** Angle normalization *)

Lemma q360_pos : 0 < 360.
Proof. reflexivity. Qed.

Lemma mod_design (x : Q) : mod_ x 360 == Design.normalize x.
Proof. unfold Design.normalize. apply mod_floor, q360_pos. Qed.

(** C5.  For every rational [x], [mod_ x 360] lies in [[0, 360)], differs
    from [x] by a whole multiple of 360, and is the mathematical modulo of
    the design document (not the signed remainder of [%], which gives -10
    at -10); [mod_ (-10) 360] is 350.  The function is total: it is a
    plain definition with no failing case. *)
Theorem mod_normalizes (x : Q) :
  (0 <= mod_ x 360 /\ mod_ x 360 < 360)
  /\ (exists k : Z, mod_ x 360 == x + 360 * inject_Z k)
  /\ mod_ x 360 == Design.normalize x
  /\ mod_ (-10) 360 == 350
  /\ JsNum.rem (-10) 360 == -10.
Proof.
  split; [apply mod_range, q360_pos|].
  split; [apply mod_congruent, q360_pos|].
  split; [apply mod_design|].
  split; reflexivity.
Qed.

(** ** Winner resolution *)

Section Segments.

Variable options : list jsstring.
Hypothesis nonempty : (0 < len options)%Z.

Lemma len_pos : 0 < inject_Z (len options).
Proof. now rewrite <- (Zlt_Qlt 0). Qed.

Lemma segmentAngle_pos : 0 < segmentAngle options.
Proof.
  unfold segmentAngle. apply Qlt_shift_div_l; [exact len_pos | lra].
Qed.

Lemma segmentAngle_total :
  segmentAngle options * inject_Z (len options) == 360.
Proof.
  unfold segmentAngle. field. intro E. pose proof len_pos as H.
  rewrite E in H. discriminate.
Qed.

(** An angle of [[0, 360)] lies in one of the [len options] segments. *)
Lemma segment_of_angle_range (a : Q) :
  0 <= a -> a < 360 ->
  (0 <= Qfloor (a / segmentAngle options) < len options)%Z.
Proof.
  intros Hlo Hhi.
  pose proof segmentAngle_pos as Hs.
  pose proof segmentAngle_total as Ht.
  destruct (Qfloor_div_bounds a (segmentAngle options) Hs) as [Hfl Hfu].
  set (f := Qfloor (a / segmentAngle options)) in *.
  split.
  - assert (Qfloor 0 <= f)%Z as H0.
    { apply Qfloor_resp_le. apply Qle_shift_div_l; [exact Hs | lra]. }
    exact H0.
  - rewrite Zlt_Qlt.
    apply (Qmult_lt_l _ _ (segmentAngle options) Hs).
    lra.
Qed.

(** The segment that holds an angle is determined by its bounds. *)
Lemma segment_of_angle (a : Q) (i : Z) :
  segmentAngle options * inject_Z i <= a ->
  a < segmentAngle options * inject_Z (i + 1) ->
  Qfloor (a / segmentAngle options) = i.
Proof. apply Qfloor_div_unique, segmentAngle_pos. Qed.

End Segments.

(** ** Arrays *)

Lemma get_nth (a : list jsstring) (i : Z) :
  (0 <= i)%Z -> JsArray.get a i = nth_error a (Z.to_nat i).
Proof.
  intros H. unfold JsArray.get.
  destruct (Z.ltb_spec i 0); [lia | reflexivity].
Qed.

Lemma get_in_range (a : list jsstring) (i : Z) :
  (0 <= i < len a)%Z -> exists label, JsArray.get a i = Some label.
Proof.
  intros [Hlo Hhi]. rewrite get_nth by exact Hlo.
  destruct (nth_error a (Z.to_nat i)) as [label|] eqn:E; [now exists label|].
  apply nth_error_None in E. unfold len in Hhi. lia.
Qed.

Lemma indexOf_lower (a : list jsstring) (x : jsstring) :
  (-1 <= JsArray.indexOf a x)%Z.
Proof.
  induction a as [|y rest IH]; simpl; [lia|].
  destruct (JsString.eq_dec y x); [lia|].
  destruct (Z.ltb_spec (JsArray.indexOf rest x) 0); lia.
Qed.

Lemma indexOf_found (a : list jsstring) (x : jsstring) :
  In x a -> (0 <= JsArray.indexOf a x < len a)%Z.
Proof.
  unfold len. induction a as [|y rest IH]; simpl; [tauto|].
  intros Hin. destruct (JsString.eq_dec y x) as [E|NE]; [lia|].
  destruct Hin as [E|Hin]; [contradiction|].
  specialize (IH Hin).
  destruct (Z.ltb_spec (JsArray.indexOf rest x) 0); lia.
Qed.

Lemma indexOf_get (a : list jsstring) (x : jsstring) :
  (0 <= JsArray.indexOf a x)%Z ->
  JsArray.get a (JsArray.indexOf a x) = Some x.
Proof.
  intros H. rewrite get_nth by exact H. revert H.
  induction a as [|y rest IH]; simpl; [lia|].
  destruct (JsString.eq_dec y x) as [E|NE]; [now subst|].
  destruct (Z.ltb_spec (JsArray.indexOf rest x) 0) as [Hneg|Hpos]; [lia|].
  intros _. rewrite Z.add_1_r, Z2Nat.inj_succ by exact Hpos. simpl.
  now apply IH.
Qed.

Lemma indexOf_missing (a : list jsstring) (x : jsstring) :
  ~ In x a -> JsArray.indexOf a x = (-1)%Z.
Proof.
  induction a as [|y rest IH]; simpl; [reflexivity|].
  intros Hn. destruct (JsString.eq_dec y x) as [E|NE]; [tauto|].
  rewrite IH by tauto. reflexivity.
Qed.

Lemma includes_In (a : list jsstring) (x : jsstring) :
  JsArray.includes a x = true <-> In x a.
Proof.
  unfold JsArray.includes. destruct (in_dec JsString.eq_dec x a); split;
    intros; try assumption; try reflexivity; try discriminate; contradiction.
Qed.

(** ** The angle under the pointer *)

#[global] Instance topWheelAngle_comp : Proper (Qeq ==> Qeq) topWheelAngle.
Proof. intros x y E. unfold topWheelAngle. now rewrite E. Qed.

Lemma topWheelAngle_range (r : Q) :
  0 <= topWheelAngle r /\ topWheelAngle r < 360.
Proof. apply mod_range, q360_pos. Qed.

(** Reducing the rotation first changes nothing. *)
Lemma topWheelAngle_direct (r : Q) :
  topWheelAngle r == mod_ (POINTER_AT_DEG - r) 360.
Proof.
  unfold topWheelAngle.
  destruct (mod_congruent 360 q360_pos r) as [k Hk].
  rewrite Hk.
  setoid_replace (POINTER_AT_DEG - (r + 360 * inject_Z k))
    with (POINTER_AT_DEG - r + 360 * inject_Z (- k)) by qlinear.
  apply mod_add_multiple, q360_pos.
Qed.

(** Whole turns do not move the pointer over the wheel. *)
Lemma topWheelAngle_turns (r : Q) (k : Z) :
  topWheelAngle (r + 360 * inject_Z k) == topWheelAngle r.
Proof.
  rewrite !topWheelAngle_direct.
  setoid_replace (POINTER_AT_DEG - (r + 360 * inject_Z k))
    with (POINTER_AT_DEG - r + 360 * inject_Z (- k)) by qlinear.
  apply mod_add_multiple, q360_pos.
Qed.

Lemma topWheelAngle_design (r : Q) :
  topWheelAngle r == Design.normalize (270 - Design.normalize r).
Proof.
  unfold topWheelAngle, POINTER_AT_DEG. cbv zeta.
  rewrite (mod_design r). apply mod_design.
Qed.

#[global] Instance winnerIndex_comp (options : list jsstring) :
  Proper (Qeq ==> eq) (winnerIndex options).
Proof.
  intros x y E. unfold winnerIndex, JsNum.floor.
  assert (H : topWheelAngle x / segmentAngle options
              == topWheelAngle y / segmentAngle options) by now rewrite E.
  now rewrite H.
Qed.

#[global] Instance getCurrentWinner_comp (options : list jsstring) :
  Proper (Qeq ==> eq) (getCurrentWinner options).
Proof.
  intros x y E. unfold getCurrentWinner.
  now rewrite (winnerIndex_comp options x y E).
Qed.

Section Winner.

Variable options : list jsstring.
Hypothesis nonempty : (0 < len options)%Z.

Lemma winnerIndex_floor (r : Q) :
  winnerIndex options r = Qfloor (topWheelAngle r / segmentAngle options).
Proof.
  unfold winnerIndex, JsNum.floor.
  destruct (topWheelAngle_range r) as [Hlo Hhi].
  pose proof (segment_of_angle_range options nonempty _ Hlo Hhi).
  apply Z.rem_small. assumption.
Qed.

Lemma winnerIndex_range (r : Q) : (0 <= winnerIndex options r < len options)%Z.
Proof.
  rewrite winnerIndex_floor.
  destruct (topWheelAngle_range r) as [Hlo Hhi].
  now apply segment_of_angle_range.
Qed.

Lemma winnerIndex_design (r : Q) :
  winnerIndex options r = Design.winnerIndex (len options) r.
Proof.
  pose proof (winnerIndex_range r) as Hr.
  rewrite winnerIndex_floor in *.
  unfold Design.winnerIndex.
  assert (E : topWheelAngle r / segmentAngle options
              == Design.normalize (270 - Design.normalize r)
                 / (360 / inject_Z (len options))).
  { unfold segmentAngle. now rewrite topWheelAngle_design. }
  rewrite <- E. symmetry. apply Z.mod_small. exact Hr.
Qed.

Lemma getCurrentWinner_get (r : Q) :
  getCurrentWinner options r = JsArray.get options (winnerIndex options r).
Proof.
  unfold getCurrentWinner.
  destruct (Z.eqb_spec (len options) 0); [lia | reflexivity].
Qed.

(** The winner is the label of the segment that holds the angle under the
    pointer. *)
Lemma winner_of_segment (r : Q) (i : Z) :
  segmentAngle options * inject_Z i <= topWheelAngle r ->
  topWheelAngle r < segmentAngle options * inject_Z (i + 1) ->
  getCurrentWinner options r = JsArray.get options i.
Proof.
  intros Hlo Hhi. rewrite getCurrentWinner_get, winnerIndex_floor.
  now rewrite (segment_of_angle options nonempty _ i Hlo Hhi).
Qed.

End Winner.

(** C2.  For a list of [n >= 2] options and any rotation [r], the index
    the code computes is
    [floor(normalize(270 - normalize(r)) / (360/n)) mod n] of the design
    document, it is a position of the list, and [getCurrentWinner] returns
    the option there; for the options A, B at rotation 0 that is B, at
    index 1. *)
Theorem winner_formula (options : list jsstring) (r : Q) :
  (2 <= len options)%Z ->
  let i := Design.winnerIndex (len options) r in
  winnerIndex options r = i
  /\ (0 <= i < len options)%Z
  /\ getCurrentWinner options r = nth_error options (Z.to_nat i)
  /\ (exists label, getCurrentWinner options r = Some label)
  /\ Design.winnerIndex 2 0 = 1%Z
  /\ getCurrentWinner [js "A"; js "B"] 0 = Some (js "B").
Proof.
  intros Hn i.
  assert (Hpos : (0 < len options)%Z) by lia.
  pose proof (winnerIndex_design options Hpos r) as Hi. fold i in Hi.
  pose proof (winnerIndex_range options Hpos r) as Hr. rewrite Hi in Hr.
  split; [exact Hi|]. split; [exact Hr|].
  rewrite (getCurrentWinner_get options Hpos), Hi.
  split; [apply get_nth; lia|].
  split; [now apply get_in_range|].
  split; reflexivity.
Qed.

Lemma winner_formula_witness :
  (2 <= len [js "A"; js "B"; js "C"])%Z
  /\ getCurrentWinner [js "A"; js "B"; js "C"] (-30)
     = nth_error [js "A"; js "B"; js "C"]
         (Z.to_nat (Design.winnerIndex 3 (-30))).
Proof.
  assert (H : (2 <= len [js "A"; js "B"; js "C"])%Z) by (vm_compute; discriminate).
  split; [exact H|].
  exact (proj1 (proj2 (proj2 (winner_formula [js "A"; js "B"; js "C"] (-30) H)))).
Defined.

(** C6 (as the code has it).  With an empty list [getCurrentWinner]
    returns the empty string for every rotation: the call returns, it
    does not fail. *)
Theorem winner_of_empty_list (r : Q) :
  getCurrentWinner [] r = Some []
  /\ getCurrentWinnerCall [] r = Returned (Some []).
Proof. split; reflexivity. Qed.

(** C6, counterexample: at the empty list and rotation 0 the call does not
    fail with [InvalidState]; it returns the empty string. *)
Lemma winner_of_empty_list_no_failure :
  getCurrentWinnerCall [] 0 = Returned (Some (js ""))
  /\ getCurrentWinnerCall [] 0 <> Failed InvalidState.
Proof. split; [reflexivity | discriminate]. Qed.

(** ** Reconciliation *)

Section Realign.

Variable options : list jsstring.
Variable index : Z.
Hypothesis index_range : (0 <= index < len options)%Z.

Lemma index_range_nonempty : (0 < len options)%Z.
Proof. lia. Qed.

(** The centre of a segment lies strictly inside it, and inside the turn. *)
Lemma centerWheelAngle_bounds :
  let c := centerWheelAngle options index in
  segmentAngle options * inject_Z index < c
  /\ c < segmentAngle options * inject_Z (index + 1)
  /\ 0 < c /\ c < 360.
Proof.
  pose proof (segmentAngle_pos options index_range_nonempty) as Hs.
  pose proof (segmentAngle_total options index_range_nonempty) as Ht.
  assert (H0 : 0 <= segmentAngle options * inject_Z index).
  { apply Qmult_le_0_compat; [lra|]. rewrite <- (Zle_Qle 0). lia. }
  assert (H1 : segmentAngle options * inject_Z (index + 1)
               <= segmentAngle options * inject_Z (len options)).
  { apply Qmult_le_l; [exact Hs|]. rewrite <- Zle_Qle. lia. }
  unfold centerWheelAngle. cbv zeta.
  rewrite inject_Z_plus in *. change (inject_Z 1) with 1 in *.
  assert (Hh : segmentAngle options / 2 == segmentAngle options * (1 # 2))
    by field.
  rewrite Hh. repeat split; lra.
Qed.

Lemma targetBase_congruent :
  exists j : Z,
    targetBase options index
    == POINTER_AT_DEG - centerWheelAngle options index + 360 * inject_Z j.
Proof. apply mod_congruent, q360_pos. Qed.

(** After realignment the pointer is over the centre of the segment. *)
Lemma topWheelAngle_realign (rotation : Q) :
  topWheelAngle (realign options index rotation)
  == centerWheelAngle options index.
Proof.
  unfold realign. cbv zeta.
  rewrite topWheelAngle_turns, topWheelAngle_direct.
  destruct targetBase_congruent as [j Hj]. rewrite Hj.
  setoid_replace
    (POINTER_AT_DEG
     - (POINTER_AT_DEG - centerWheelAngle options index + 360 * inject_Z j))
    with (centerWheelAngle options index + 360 * inject_Z (- j)) by qlinear.
  rewrite (mod_add_multiple 360 q360_pos).
  destruct centerWheelAngle_bounds as (_ & _ & Hlo & Hhi).
  apply (mod_small 360 q360_pos); lra.
Qed.

Lemma winner_after_realign (rotation : Q) :
  getCurrentWinner options (realign options index rotation)
  = JsArray.get options index.
Proof.
  destruct centerWheelAngle_bounds as (Hlo & Hhi & _).
  apply (winner_of_segment options index_range_nonempty); rewrite topWheelAngle_realign; lra.
Qed.

End Realign.

(** The turn count chosen by [Math.round] is the nearest one. *)
Lemma round_nearest (d : Q) :
  let e := 360 * inject_Z (JsNum.round (d / 360)) - d in
  - (180) < e /\ e <= 180.
Proof.
  unfold JsNum.round. cbv zeta.
  assert (E : d / 360 + (1 # 2) == (d + 180) / 360) by field.
  rewrite E.
  destruct (Qfloor_div_bounds (d + 180) 360 q360_pos) as [Hlo Hhi].
  qlinear.
Qed.

Lemma realign_jump (options : list jsstring) (index : Z) (r : Q) :
  let base := targetBase options index in
  let result := realign options index r in
  (exists k : Z, result == base + 360 * inject_Z k)
  /\ (forall m : Z, Qabs (result - r) <= Qabs (base + 360 * inject_Z m - r))
  /\ Qabs (result - r) <= 180.
Proof.
  cbv zeta. unfold realign. cbv zeta.
  set (base := targetBase options index).
  set (k := JsNum.round ((r - base) / 360)).
  destruct (round_nearest (r - base)) as [Hlo Hhi]. fold k in Hlo, Hhi.
  assert (Habs : Qabs (base + 360 * inject_Z k - r) <= 180).
  { apply Qabs_Qle_condition. lra. }
  split; [now exists k|]. split; [|exact Habs].
  intros m.
  destruct (Z.lt_trichotomy m k) as [Hm | [Hm | Hm]].
  - (* a turn less: at least 180 away on the other side *)
    apply Qle_trans with 180; [exact Habs|].
    assert (Hz : inject_Z m + 1 <= inject_Z k).
    { change 1 with (inject_Z 1). rewrite <- inject_Z_plus, <- Zle_Qle. lia. }
    rewrite <- Qabs_opp. eapply Qle_trans; [|apply Qle_Qabs]. lra.
  - subst m. apply Qle_refl.
  - apply Qle_trans with 180; [exact Habs|].
    assert (Hz : inject_Z k + 1 <= inject_Z m).
    { change 1 with (inject_Z 1). rewrite <- inject_Z_plus, <- Zle_Qle. lia. }
    eapply Qle_trans; [|apply Qle_Qabs]. lra.
Qed.

Lemma reconcileEffect_found (st : State) (label : jsstring) :
  pendingPreservedWinner st = Some label -> label <> [] ->
  In label (options st) ->
  reconcileEffect st =
  {| options := options st; newOption := newOption st;
     isSpinning := isSpinning st;
     currentRotation :=
       realign (options st) (JsArray.indexOf (options st) label)
               (currentRotation st);
     formError := formError st; showSuccess := showSuccess st;
     pendingPreservedWinner := None |}.
Proof.
  intros Hp Hl Hin. unfold reconcileEffect. rewrite Hp.
  destruct label as [|c rest]; [contradiction|]. simpl negb. cbv iota.
  pose proof (indexOf_found _ _ Hin) as [Hlo _].
  destruct (Z.ltb_spec (JsArray.indexOf (options st) (c :: rest)) 0); [lia|].
  reflexivity.
Qed.

(** C3.  For an option list that contains the preserved label and any
    current rotation, the rotation [targetBase + 360 k] with
    [k = round((r - targetBase) / 360)] for the label's index makes
    [getCurrentWinner] return exactly that label.  The effect stores this
    rotation whenever the pending label is set (a non-empty string),
    clears the pending label and leaves the list alone; so when the label
    was the winner before the list changed, the winner afterwards is the
    same. *)
Theorem reconcile_preserves_winner (st : State) (label : jsstring) :
  In label (options st) ->
  let index := JsArray.indexOf (options st) label in
  let base := targetBase (options st) index in
  let k := JsNum.round ((currentRotation st - base) / 360) in
  realign (options st) index (currentRotation st) = base + 360 * inject_Z k
  /\ getCurrentWinner (options st) (base + 360 * inject_Z k) = Some label
  /\ (pendingPreservedWinner st = Some label -> label <> [] ->
      let st' := reconcileEffect st in
      options st' = options st
      /\ currentRotation st' = base + 360 * inject_Z k
      /\ pendingPreservedWinner st' = None
      /\ getCurrentWinner (options st') (currentRotation st') = Some label
      /\ forall before : list jsstring,
           getCurrentWinner before (currentRotation st) = Some label ->
           getCurrentWinner (options st') (currentRotation st')
           = getCurrentWinner before (currentRotation st)).
Proof.
  intros Hin index base k.
  pose proof (indexOf_found _ _ Hin) as Hidx. fold index in Hidx.
  assert (Hw : getCurrentWinner (options st) (base + 360 * inject_Z k)
               = Some label).
  { change (base + 360 * inject_Z k)
      with (realign (options st) index (currentRotation st)).
    rewrite (winner_after_realign _ _ Hidx).
    apply indexOf_get. lia. }
  split; [reflexivity|]. split; [exact Hw|].
  intros Hp Hl st'. unfold st'.
  rewrite (reconcileEffect_found st label Hp Hl Hin). simpl.
  repeat split; try exact Hw.
  intros before Hb. now rewrite Hb.
Qed.

Lemma reconcile_preserves_winner_witness :
  let st := {| options := [js "A"; js "B"; js "C"]; newOption := [];
               isSpinning := false; currentRotation := 725;
               formError := []; showSuccess := false;
               pendingPreservedWinner := Some (js "A") |} in
  In (js "A") (options st)
  /\ getCurrentWinner (options st) (currentRotation (reconcileEffect st))
     = Some (js "A").
Proof.
  intros st.
  assert (Hin : In (js "A") (options st)) by (left; reflexivity).
  split; [exact Hin|].
  destruct (reconcile_preserves_winner st (js "A") Hin) as (_ & _ & H).
  destruct (H eq_refl ltac:(discriminate)) as (_ & _ & _ & Hw & _).
  exact Hw.
Defined.

(** C4.  For an option list that contains the label and any rotation
    [r], the rotation the reconciliation stores differs from [targetBase]
    by a whole number of turns and is at least as close to [r] as every
    other rotation [targetBase + 360 m]; the adjustment is at most 180
    degrees.  The effect stores this rotation whenever the pending label
    is set. *)
Theorem reconcile_minimal_jump (st : State) (label : jsstring) :
  In label (options st) ->
  let index := JsArray.indexOf (options st) label in
  let base := targetBase (options st) index in
  let r := currentRotation st in
  let result := realign (options st) index r in
  (exists k : Z, result == base + 360 * inject_Z k)
  /\ (forall m : Z, Qabs (result - r) <= Qabs (base + 360 * inject_Z m - r))
  /\ Qabs (result - r) <= 180
  /\ (pendingPreservedWinner st = Some label -> label <> [] ->
      currentRotation (reconcileEffect st) = result).
Proof.
  intros Hin index base r result.
  destruct (realign_jump (options st) index r) as (Hk & Hm & Hb).
  repeat split; try assumption.
  intros Hp Hl. now rewrite (reconcileEffect_found st label Hp Hl Hin).
Qed.

Lemma reconcile_minimal_jump_witness :
  let st := {| options := [js "A"; js "B"; js "C"]; newOption := [];
               isSpinning := false; currentRotation := 725;
               formError := []; showSuccess := false;
               pendingPreservedWinner := Some (js "B") |} in
  In (js "B") (options st)
  /\ Qabs (currentRotation (reconcileEffect st) - currentRotation st) <= 180.
Proof.
  intros st.
  assert (Hin : In (js "B") (options st)) by (right; left; reflexivity).
  split; [exact Hin|].
  destruct (reconcile_minimal_jump st (js "B") Hin) as (_ & _ & Hb & He).
  rewrite (He eq_refl ltac:(discriminate)). exact Hb.
Defined.

(** ** Spin generator *)

Section Spin.

Variable options : list jsstring.
Hypothesis enough : (2 <= len options)%Z.

Lemma enough_nonempty : (0 < len options)%Z.
Proof. lia. Qed.

Lemma spinSegmentIndex_range (u : Q) :
  unitDraw u -> (0 <= spinSegmentIndex options u < len options)%Z.
Proof.
  intros [Hlo Hhi]. unfold spinSegmentIndex, JsNum.floor.
  assert (Hn : 0 < inject_Z (len options)) by exact (len_pos options enough_nonempty).
  assert (H0 : 0 <= u * inject_Z (len options)).
  { apply Qmult_le_0_compat; lra. }
  assert (H1 : u * inject_Z (len options) < 1 * inject_Z (len options)).
  { now apply Qmult_lt_compat_r. }
  split.
  - change 0%Z with (Qfloor 0). now apply Qfloor_resp_le.
  - rewrite Zlt_Qlt. eapply Qle_lt_trans; [apply Qfloor_le|]. lra.
Qed.

Lemma spinMargin_tenth : spinMargin options == (1 # 10) * segmentAngle options.
Proof. unfold spinMargin. ring. Qed.

Lemma offsetWithinSegment_bounds (u : Q) :
  unitDraw u ->
  spinMargin options <= offsetWithinSegment options u
  /\ offsetWithinSegment options u < segmentAngle options - spinMargin options.
Proof.
  intros [Hlo Hhi].
  pose proof (segmentAngle_pos options enough_nonempty) as Hs.
  pose proof spinMargin_tenth as Hm.
  unfold offsetWithinSegment.
  set (width := segmentAngle options - 2 * spinMargin options).
  assert (Hw : 0 < width) by (unfold width; lra).
  assert (H0 : 0 <= u * width) by (apply Qmult_le_0_compat; lra).
  assert (H1 : u * width < 1 * width) by now apply Qmult_lt_compat_r.
  unfold width in *. split; lra.
Qed.

End Spin.

(** The margin of the generator's choice.  For a list of [n >= 2]
    options and draws in [[0, 1)], the offset picked inside the segment
    satisfies [margin <= offset <= segmentAngle - margin] with
    [segmentAngle = 360 / n] and [margin = 0.1 * segmentAngle]; the local
    angle [segmentIndex * segmentAngle + offset] stays at least [margin]
    away from both boundaries of the picked segment.  This bounds what the
    generator picks, not the wheel angle that ends under the pointer. *)
Theorem landing_margin (options : list jsstring) (u1 u2 : Q) :
  (2 <= len options)%Z -> unitDraw u1 -> unitDraw u2 ->
  let seg := segmentAngle options in
  let margin := spinMargin options in
  let offset := offsetWithinSegment options u2 in
  let i := inject_Z (spinSegmentIndex options u1) in
  seg == 360 / inject_Z (len options)
  /\ margin == (1 # 10) * seg
  /\ margin <= offset /\ offset <= seg - margin
  /\ (0 <= spinSegmentIndex options u1 < len options)%Z
  /\ i * seg + margin <= targetAngle options u1 u2
  /\ targetAngle options u1 u2 <= (i + 1) * seg - margin.
Proof.
  intros Hn Hu1 Hu2. cbv zeta.
  destruct (offsetWithinSegment_bounds options Hn u2 Hu2) as [Hlo Hhi].
  split; [reflexivity|].
  split; [apply spinMargin_tenth|].
  split; [exact Hlo|].
  split; [now apply Qlt_le_weak|].
  split; [now apply spinSegmentIndex_range|].
  unfold targetAngle. split; lra.
Qed.

Lemma landing_margin_witness :
  (2 <= len [js "A"; js "B"; js "C"; js "D"])%Z
  /\ unitDraw (3 # 4) /\ unitDraw (1 # 3)
  /\ 9 <= offsetWithinSegment [js "A"; js "B"; js "C"; js "D"] (1 # 3)
  /\ offsetWithinSegment [js "A"; js "B"; js "C"; js "D"] (1 # 3) <= 81.
Proof.
  assert (Hn : (2 <= len [js "A"; js "B"; js "C"; js "D"])%Z)
    by (vm_compute; discriminate).
  assert (Hu1 : unitDraw (3 # 4)) by (split; vm_compute; congruence).
  assert (Hu2 : unitDraw (1 # 3)) by (split; vm_compute; congruence).
  split; [exact Hn|]. split; [exact Hu1|]. split; [exact Hu2|].
  destruct (landing_margin _ _ _ Hn Hu1 Hu2) as (_ & _ & Hlo & Hhi & _).
  split.
  - eapply Qle_trans; [|exact Hlo]. vm_compute; discriminate.
  - eapply Qle_trans; [exact Hhi|]. vm_compute; discriminate.
Defined.

(** The number of full turns does not change the winner of a spin. *)
Lemma spin_winner_turns (options : list jsstring) (r u1 u2 u3 : Q) :
  getCurrentWinner options (r + randomDegrees options u1 u2 u3)
  = getCurrentWinner options (r + targetAngle options u1 u2).
Proof.
  unfold getCurrentWinner. destruct (len options =? 0)%Z; [reflexivity|].
  f_equal. unfold winnerIndex. f_equal. unfold JsNum.floor.
  apply Qfloor_comp.
  assert (E : topWheelAngle (r + randomDegrees options u1 u2 u3)
              == topWheelAngle (r + targetAngle options u1 u2)).
  { unfold randomDegrees.
    setoid_replace (r + (inject_Z (spinCount u3) * 360 + targetAngle options u1 u2))
      with (r + targetAngle options u1 u2 + 360 * inject_Z (spinCount u3))
      by ring.
    apply topWheelAngle_turns. }
  now rewrite E.
Qed.

(** After a spin the pointer is over the wheel angle
    [270 - (rotation + targetAngle)], reduced to one turn: the picked
    local angle is added to the rotation, it is not the angle that ends
    under the pointer. *)
Lemma spin_landing_angle (options : list jsstring) (r u1 u2 u3 : Q) :
  topWheelAngle (r + randomDegrees options u1 u2 u3)
  == mod_ (POINTER_AT_DEG - (r + targetAngle options u1 u2)) 360.
Proof.
  unfold randomDegrees.
  setoid_replace (r + (inject_Z (spinCount u3) * 360 + targetAngle options u1 u2))
    with (r + targetAngle options u1 u2 + 360 * inject_Z (spinCount u3))
    by ring.
  rewrite topWheelAngle_turns. apply topWheelAngle_direct.
Qed.

(** C1, at a concrete spin.  From the initial state (options "Option 1",
    "Option 2", rotation 0) with the draws 0, 1/2 and 0, the generator
    picks segment 0 ("Option 1"), offset 90 and 3 turns; the new rotation
    is 1170, and [getCurrentWinner] at it returns "Option 2", not the
    option of the picked segment.  The angle under the pointer is 180,
    the boundary between the two segments. *)
Theorem spin_winner_is_not_chosen_segment :
  let w := commit (launchSpin initialWorld 0 (1 # 2) 0) in
  Step initialWorld w
  /\ spinSegmentIndex (options (view initialWorld)) 0 = 0%Z
  /\ Design.chosenOption (options (view initialWorld)) 0 = Some (js "Option 1")
  /\ offsetWithinSegment (options (view initialWorld)) (1 # 2) == 90
  /\ currentRotation (view w) == 1170
  /\ topWheelAngle (currentRotation (view w)) == 180
  /\ getCurrentWinner (options (view w)) (currentRotation (view w))
     = Some (js "Option 2")
  /\ getCurrentWinner (options (view w)) (currentRotation (view w))
     <> Design.chosenOption (options (view initialWorld)) 0.
Proof.
  cbv zeta. split.
  - apply StepSpin; split; vm_compute; congruence.
  - repeat split; try reflexivity. vm_compute. discriminate.
Qed.

(** C7, at a concrete spin.  From the initial state (two options, rotation
    0) with the draws 0, 1/2 and 0, the segment is 180 wide, the margin is
    18 and the offset picked is 90, which does satisfy
    [margin <= offset <= segmentAngle - margin]; but the wheel angle that
    ends under the pointer is 180, which is the boundary between segments
    0 and 1: the landing point is at distance 0 from a segment boundary,
    inside the margin.  (The same defect as C1: the picked local angle is
    added to the rotation instead of being brought under the pointer.) *)
Theorem spin_lands_on_segment_boundary :
  let opts := options (view initialWorld) in
  let w := commit (launchSpin initialWorld 0 (1 # 2) 0) in
  let landing := topWheelAngle (currentRotation (view w)) in
  let boundary := inject_Z 1 * segmentAngle opts in
  Step initialWorld w
  /\ segmentAngle opts == 180
  /\ spinMargin opts == 18
  /\ offsetWithinSegment opts (1 # 2) == 90
  /\ spinMargin opts <= offsetWithinSegment opts (1 # 2)
  /\ offsetWithinSegment opts (1 # 2) <= segmentAngle opts - spinMargin opts
  /\ currentRotation (view w) == 1170
  /\ landing == boundary
  /\ Qabs (landing - boundary) < spinMargin opts
  /\ winnerIndex opts (currentRotation (view w)) = 1%Z
  /\ spinSegmentIndex opts 0 = 0%Z.
Proof.
  cbv zeta. split.
  - apply StepSpin; split; vm_compute; congruence.
  - repeat split; try reflexivity; vm_compute; discriminate.
Qed.

(** ** Trimming *)

Module TrimFacts.

Import JsString.

Lemma trimStart_clean (s : t) : startsClean (trimStart s).
Proof.
  induction s as [|c rest IH]; simpl; [exact I|].
  destruct (isWhiteSpace c) eqn:E; [exact IH | exact E].
Qed.

Lemma trimStart_fixed (s : t) : startsClean s -> trimStart s = s.
Proof.
  destruct s as [|c rest]; simpl; [reflexivity|].
  intros E. now rewrite E.
Qed.

Lemma trimStart_keeps_last (l : t) (c : N) :
  isWhiteSpace c = false -> exists l', trimStart (l ++ [c]) = l' ++ [c].
Proof.
  intros Hc. induction l as [|d rest IH]; simpl.
  - rewrite Hc. now exists [].
  - destruct (isWhiteSpace d); [exact IH|]. now exists (d :: rest).
Qed.

Lemma trimEnd_clean (s : t) : startsClean s -> startsClean (trimEnd s).
Proof.
  destruct s as [|c rest]; [intros _; exact I|].
  simpl. intros Hc. unfold trimEnd. simpl rev.
  destruct (trimStart_keeps_last (rev rest) c Hc) as [l' E].
  rewrite E, rev_app_distr. exact Hc.
Qed.

Lemma trimEnd_idempotent (s : t) : trimEnd (trimEnd s) = trimEnd s.
Proof.
  unfold trimEnd. rewrite rev_involutive.
  now rewrite (trimStart_fixed _ (trimStart_clean _)).
Qed.

Lemma trim_idempotent (s : t) : trim (trim s) = trim s.
Proof.
  unfold trim.
  rewrite (trimStart_fixed (trimEnd (trimStart s))).
  - apply trimEnd_idempotent.
  - apply trimEnd_clean, trimStart_clean.
Qed.

Lemma truthy_nonempty (s : t) : truthy s = true <-> s <> [].
Proof. destruct s; simpl; split; congruence. Qed.

Lemma truthy_false (s : t) : truthy s = false <-> s = [].
Proof. destruct s; simpl; split; congruence. Qed.

End TrimFacts.

(** ** Validation *)

Section Validation.

Variable options : list jsstring.
Variable value : jsstring.
Variable skipDuplicateCheck : bool.

(** The four messages, each under its own condition, in the order the
    checks are made. *)
Lemma validateOption_cases :
  (JsString.trim value = []
   /\ validateOption options value skipDuplicateCheck = msgEmpty)
  \/ (JsString.trim value <> []
      /\ (Z.of_nat (List.length (JsString.trim value)) > 50)%Z
      /\ validateOption options value skipDuplicateCheck = msgTooLong)
  \/ (JsString.trim value <> []
      /\ (Z.of_nat (List.length (JsString.trim value)) <= 50)%Z
      /\ skipDuplicateCheck = false /\ In (JsString.trim value) options
      /\ validateOption options value skipDuplicateCheck = msgDuplicate)
  \/ (JsString.trim value <> []
      /\ (Z.of_nat (List.length (JsString.trim value)) <= 50)%Z
      /\ (skipDuplicateCheck = true \/ ~ In (JsString.trim value) options)
      /\ (len options >= 12)%Z
      /\ validateOption options value skipDuplicateCheck = msgFull)
  \/ (JsString.trim value <> []
      /\ (Z.of_nat (List.length (JsString.trim value)) <= 50)%Z
      /\ (skipDuplicateCheck = true \/ ~ In (JsString.trim value) options)
      /\ (len options < 12)%Z
      /\ validateOption options value skipDuplicateCheck = []).
Proof.
  unfold validateOption. cbv zeta.
  set (trimmed := JsString.trim value).
  destruct (JsString.truthy trimmed) eqn:Et; simpl negb; cbv iota.
  2:{ left. now apply TrimFacts.truthy_false in Et. }
  apply TrimFacts.truthy_nonempty in Et. right.
  change (maxOptionLength CONFIG) with 50%Z.
  change (maxOptions CONFIG) with 12%Z.
  destruct (Z.gtb_spec (Z.of_nat (List.length trimmed)) 50) as [Hl|Hl].
  { left. repeat split; [assumption | lia]. }
  right.
  destruct skipDuplicateCheck; simpl negb; simpl andb.
  - right.
    destruct (Z.geb_spec (len options) 12) as [Hf|Hf].
    + left. repeat split; try assumption; try lia; try (now left).
    + right. repeat split; try assumption; try lia; try (now left).
  - destruct (JsArray.includes options trimmed) eqn:Ei.
    + left. apply includes_In in Ei. repeat split; assumption.
    + right.
      assert (Hn : ~ In trimmed options).
      { intro Hin. apply includes_In in Hin. congruence. }
      destruct (Z.geb_spec (len options) 12) as [Hf|Hf].
      * left. repeat split; try assumption; try lia; try (now right).
      * right. repeat split; try assumption; try lia; try (now right).
Qed.

End Validation.

Lemma msgs_nonempty :
  msgEmpty <> [] /\ msgTooLong <> [] /\ msgDuplicate <> [] /\ msgFull <> [].
Proof. repeat split; discriminate. Qed.

Lemma msgs_distinct :
  msgEmpty <> msgTooLong /\ msgEmpty <> msgDuplicate /\ msgEmpty <> msgFull
  /\ msgTooLong <> msgDuplicate /\ msgTooLong <> msgFull
  /\ msgDuplicate <> msgFull.
Proof. repeat split; discriminate. Qed.

(** ** Adding an option *)

(** C8.  [handleSubmit] rejects the submitted text exactly when its
    trimmed form is empty, is longer than 50, is already in the list, or
    the list already holds 12 entries, with one message per reason in
    that order of precedence.  A rejection leaves the option list, the
    rotation and the pending preserved label as they were (only the form
    error is set); an accepted text is appended, trimmed, at the end. *)
Theorem submit_validates_before_mutating (w : World) :
  let st := view w in
  let st' := view (handleSubmit w) in
  let label := JsString.trim (newOption st) in
  let error := validateOption (options st) (newOption st) false in
  (error <> [] <->
     label = []
     \/ (Z.of_nat (List.length label) > maxOptionLength CONFIG)%Z
     \/ In label (options st)
     \/ (len (options st) >= maxOptions CONFIG)%Z)
  /\ (error = msgEmpty <-> label = [])
  /\ (error = msgTooLong <->
        label <> [] /\ (Z.of_nat (List.length label) > 50)%Z)
  /\ (error = msgDuplicate <->
        label <> [] /\ (Z.of_nat (List.length label) <= 50)%Z
        /\ In label (options st))
  /\ (error = msgFull <->
        label <> [] /\ (Z.of_nat (List.length label) <= 50)%Z
        /\ ~ In label (options st) /\ (len (options st) >= 12)%Z)
  /\ (error <> [] ->
        options st' = options st
        /\ currentRotation st' = currentRotation st
        /\ pendingPreservedWinner st' = pendingPreservedWinner st
        /\ isSpinning st' = isSpinning st
        /\ formError st' = error)
  /\ (error = [] ->
        options st' = options st ++ [label]
        /\ currentRotation st' = currentRotation st
        /\ pendingPreservedWinner st'
           = getCurrentWinner (options st) (currentRotation st)).
Proof.
  cbv zeta.
  pose proof msgs_nonempty as (Ne & Nl & Nd & Nf).
  pose proof msgs_distinct as (D1 & D2 & D3 & D4 & D5 & D6).
  change (maxOptionLength CONFIG) with 50%Z.
  change (maxOptions CONFIG) with 12%Z.
  unfold handleSubmit.
  destruct (validateOption_cases (options (view w)) (newOption (view w)) false)
    as [(Hl & E) | [(Hl & Hlen & E) | [(Hl & Hlen & _ & Hin & E)
       | [(Hl & Hlen & [Hs | Hin] & Hfull & E)
       | (Hl & Hlen & [Hs | Hin] & Hfull & E)]]]];
    try discriminate; rewrite E;
    repeat match goal with
           | |- _ /\ _ => split
           | |- _ <-> _ => split
           end;
    simpl; intros;
    repeat match goal with
           | H : _ /\ _ |- _ => destruct H
           | H : _ \/ _ |- _ => destruct H
           end;
    try reflexivity; try congruence; try lia; try tauto;
    repeat split; try assumption; try lia; try tauto.
Qed.

Lemma submit_validates_before_mutating_witness :
  let w := {| view :=
                {| options := [js "Tea"; js "Coffee"];
                   newOption := js "  Cocoa ";
                   isSpinning := false; currentRotation := 45;
                   formError := []; showSuccess := false;
                   pendingPreservedWinner := None |};
              spinTimeouts := 0; successTimeouts := 0 |} in
  validateOption (options (view w)) (newOption (view w)) false = []
  /\ options (view (handleSubmit w)) = [js "Tea"; js "Coffee"; js "Cocoa"].
Proof.
  intros w.
  assert (E : validateOption (options (view w)) (newOption (view w)) false = [])
    by reflexivity.
  split; [exact E|].
  destruct (submit_validates_before_mutating w) as (_ & _ & _ & _ & _ & _ & H).
  destruct (H E) as (Ho & _). rewrite Ho. reflexivity.
Defined.

(** ** Editing an option *)

(** C10.  When the list holds exactly [maxOptions] = 12 entries, no call
    of [handleEditOption] stores anything: it returns early (prompt
    dismissed or blank) or alerts a validation error, so the list stays
    as it was.  In particular a text that is otherwise acceptable
    (non-empty, at most 50 long, unchanged or not in the list) is refused
    with the "Maximum 12 options allowed" message, because the
    validator's list-length check runs on the edit path too. *)
Theorem edit_rejected_when_full
  (w : World) (index : nat) (answer : option jsstring) :
  len (options (view w)) = maxOptions CONFIG ->
  (forall w', handleEditOption w index answer <> EditStored w')
  /\ handleEditOption w index answer <> EditOutside
  /\ (handleEditOption w index answer = EditReturned <->
        answer = None
        \/ exists text, answer = Some text /\ JsString.trim text = [])
  /\ (forall text,
        answer = Some text -> JsString.trim text <> [] ->
        exists message,
          handleEditOption w index answer = EditAlerted message
          /\ (message = msgTooLong \/ message = msgDuplicate
              \/ message = msgFull)
          /\ ((Z.of_nat (List.length (JsString.trim text)) <= 50)%Z ->
              nth_error (options (view w)) index = Some (JsString.trim text)
              \/ ~ In (JsString.trim text) (options (view w)) ->
              message = msgFull)).
Proof.
  change (maxOptions CONFIG) with 12%Z. intros Hfull.
  pose proof msgs_nonempty as (Ne & Nl & Nd & Nf).
  unfold handleEditOption.
  destruct answer as [text|].
  2:{ repeat split; try discriminate; auto; intros; discriminate. }
  destruct (JsString.truthy (JsString.trim text)) eqn:Et; simpl negb; cbv iota.
  2:{ apply TrimFacts.truthy_false in Et.
      repeat split; try discriminate; auto.
      - intros _. right. now exists text.
      - intros t Ht Hne. inversion Ht; subst. contradiction. }
  apply TrimFacts.truthy_nonempty in Et.
  set (same := match nth_error (options (view w)) index with
               | Some c => JsString.eqb (JsString.trim text) c
               | None => false
               end).
  assert (Hsame : same = true ->
                  nth_error (options (view w)) index
                  = Some (JsString.trim text)).
  { unfold same. destruct (nth_error (options (view w)) index) as [c|];
      [|discriminate].
    unfold JsString.eqb.
    destruct (JsString.eq_dec (JsString.trim text) c); [now subst|discriminate]. }
  assert (Hdiff : same = false ->
                  nth_error (options (view w)) index
                  <> Some (JsString.trim text)).
  { unfold same. destruct (nth_error (options (view w)) index) as [c|];
      [|discriminate].
    unfold JsString.eqb.
    destruct (JsString.eq_dec (JsString.trim text) c); [discriminate|].
    congruence. }
  destruct (validateOption_cases (options (view w)) (JsString.trim text) same)
    as [(Hl & E) | [(Hl & Hlen & E) | [(Hl & Hlen & Hs & Hin & E)
       | [(Hl & Hlen & Hd & _ & E) | (_ & _ & _ & Hlt & _)]]]];
    rewrite ?TrimFacts.trim_idempotent in *;
    try contradiction; try lia; rewrite E; simpl JsString.truthy; cbv iota.
  - repeat split; try discriminate.
    + intros [H | (t & Ht & Hn)]; [discriminate|]. inversion Ht; subst.
      contradiction.
    + intros t Ht _. inversion Ht; subst. exists msgTooLong.
      repeat split; auto. intros. lia.
  - repeat split; try discriminate.
    + intros [H | (t & Ht & Hn)]; [discriminate|]. inversion Ht; subst.
      contradiction.
    + intros t Ht _. inversion Ht; subst. exists msgDuplicate.
      repeat split; auto. intros _ [Hc | Hc]; [|contradiction].
      exfalso. now apply (Hdiff Hs).
  - repeat split; try discriminate.
    + intros [H | (t & Ht & Hn)]; [discriminate|]. inversion Ht; subst.
      contradiction.
    + intros t Ht _. inversion Ht; subst. exists msgFull.
      repeat split; auto.
Qed.

Lemma edit_rejected_when_full_witness :
  let full := map (fun c => [c])
                  [65; 66; 67; 68; 69; 70; 71; 72; 73; 74; 75; 76]%N in
  let w := {| view :=
                {| options := full; newOption := [];
                   isSpinning := false; currentRotation := 0;
                   formError := []; showSuccess := false;
                   pendingPreservedWinner := None |};
              spinTimeouts := 0; successTimeouts := 0 |} in
  len (options (view w)) = maxOptions CONFIG
  /\ handleEditOption w 0 (Some (js "Z")) = EditAlerted msgFull.
Proof.
  intros full w.
  assert (Hfull : len (options (view w)) = maxOptions CONFIG) by reflexivity.
  split; [exact Hfull|].
  destruct (edit_rejected_when_full w 0 (Some (js "Z")) Hfull)
    as (_ & _ & _ & H).
  destruct (H (js "Z") eq_refl ltac:(discriminate)) as (message & E & _ & Hm).
  rewrite E. f_equal. apply Hm.
  - vm_compute. discriminate.
  - right. vm_compute. intuition discriminate.
Defined.

(** ** Executions *)

Lemma reconcileEffect_frame (st : State) :
  let st' := reconcileEffect st in
  options st' = options st /\ isSpinning st' = isSpinning st
  /\ pendingTruthy (pendingPreservedWinner st') = false.
Proof.
  unfold reconcileEffect.
  destruct (pendingPreservedWinner st) as [label|] eqn:Ep.
  - destruct (JsString.truthy label) eqn:Et; simpl negb; cbv iota.
    + destruct (JsArray.indexOf (options st) label <? 0)%Z; simpl; auto.
    + simpl. rewrite Ep. simpl. auto.
  - simpl. rewrite Ep. auto.
Qed.

Lemma reconcileEffect_idle (st : State) :
  pendingTruthy (pendingPreservedWinner st) = false -> reconcileEffect st = st.
Proof.
  unfold reconcileEffect, pendingTruthy.
  destruct (pendingPreservedWinner st) as [label|]; [|reflexivity].
  intros E. now rewrite E.
Qed.

Lemma commit_idle (w : World) :
  pendingTruthy (pendingPreservedWinner (view w)) = false -> commit w = w.
Proof.
  intros H. unfold commit. rewrite (reconcileEffect_idle _ H).
  now destruct w.
Qed.

Lemma commit_invariant (w : World) :
  spinTimeouts w = (if isSpinning (view w) then 1%nat else 0%nat) ->
  Forall (fun label => label <> []) (options (view w)) ->
  Invariant (commit w).
Proof.
  intros Ht Hl.
  destruct (reconcileEffect_frame (view w)) as (Ho & Hs & Hp).
  constructor; simpl; [now rewrite Hs | exact Hp | now rewrite Ho].
Qed.

Lemma removeAt_labels (a : list jsstring) (index : nat) :
  Forall (fun label => label <> []) a ->
  Forall (fun label => label <> []) (JsArray.removeAt a index).
Proof.
  intros H. revert index.
  induction H as [|y rest Hy Hrest IH]; intros [|k]; simpl; auto.
Qed.

Lemma setAt_labels (a : list jsstring) (index : nat) (v : jsstring) :
  v <> [] ->
  Forall (fun label => label <> []) a ->
  Forall (fun label => label <> []) (JsArray.setAt a index v).
Proof.
  intros Hv H. revert index.
  induction H as [|y rest Hy Hrest IH]; intros [|k]; simpl; auto.
Qed.

Lemma launchSpin_timeouts (w : World) (u1 u2 u3 : Q) :
  spinTimeouts w = (if isSpinning (view w) then 1%nat else 0%nat) ->
  spinTimeouts (launchSpin w u1 u2 u3)
  = if isSpinning (view (launchSpin w u1 u2 u3)) then 1%nat else 0%nat.
Proof.
  intros Ht. unfold launchSpin.
  destruct (isSpinning (view w)
            || (len (options (view w)) <? minOptions CONFIG)%Z)%bool eqn:E.
  - exact Ht.
  - apply orb_false_elim in E as [Es _]. rewrite Es in Ht. simpl.
    now rewrite Ht.
Qed.

Lemma launchSpin_options (w : World) (u1 u2 u3 : Q) :
  options (view (launchSpin w u1 u2 u3)) = options (view w).
Proof.
  unfold launchSpin.
  now destruct (isSpinning (view w)
                || (len (options (view w)) <? minOptions CONFIG)%Z)%bool.
Qed.

Lemma handleSubmit_labels (w : World) :
  Forall (fun label => label <> []) (options (view w)) ->
  Forall (fun label => label <> []) (options (view (handleSubmit w))).
Proof.
  intros Hl. unfold handleSubmit.
  destruct (validateOption_cases (options (view w)) (newOption (view w)) false)
    as [(_ & E) | [(_ & _ & E) | [(_ & _ & _ & _ & E)
       | [(_ & _ & _ & _ & E) | (Hne & _ & _ & _ & E)]]]];
    rewrite E; simpl; try assumption.
  apply Forall_app. split; [assumption|]. now repeat constructor.
Qed.

Lemma handleEditOption_stored (w w' : World) (index : nat)
  (answer : option jsstring) :
  handleEditOption w index answer = EditStored w' ->
  spinTimeouts w' = spinTimeouts w
  /\ isSpinning (view w') = isSpinning (view w)
  /\ exists trimmed,
       trimmed <> []
       /\ options (view w')
          = if (index =? List.length (options (view w)))%nat
            then options (view w) ++ [trimmed]
            else JsArray.setAt (options (view w)) index trimmed.
Proof.
  unfold handleEditOption.
  destruct answer as [text|]; [|discriminate].
  destruct (JsString.truthy (JsString.trim text)) eqn:Et; simpl negb;
    cbv iota; [|discriminate].
  apply TrimFacts.truthy_nonempty in Et.
  destruct (JsString.truthy (validateOption _ _ _)); [discriminate|].
  destruct (index <=? List.length (options (view w)))%nat; [|discriminate].
  intros E. inversion E; subst w'. simpl.
  split; [reflexivity|]. split; [reflexivity|].
  now exists (JsString.trim text).
Qed.

Lemma step_invariant (w w' : World) : Invariant w -> Step w w' -> Invariant w'.
Proof.
  intros [Ht Hp Hl] HS.
  destruct HS as [w u1 u2 u3 _ _ _ | w Hpos | w | w _ | w value | w index _
                  | w index answer w1 _ Hedit | w].
  - apply commit_invariant.
    + now apply launchSpin_timeouts.
    + now rewrite launchSpin_options.
  - apply commit_invariant; simpl; [|assumption].
    destruct (isSpinning (view w)); [now rewrite Ht | lia].
  - apply commit_invariant.
    + unfold handleSubmit. now destruct (JsString.truthy _).
    + now apply handleSubmit_labels.
  - apply commit_invariant; simpl; assumption.
  - apply commit_invariant; simpl; assumption.
  - apply commit_invariant; simpl; [assumption|]. now apply removeAt_labels.
  - destruct (handleEditOption_stored _ _ _ _ Hedit)
      as (Ht' & Hs' & trimmed & Hne & Ho).
    apply commit_invariant.
    + now rewrite Ht', Hs'.
    + rewrite Ho.
      destruct (index =? List.length (options (view w)))%nat.
      * apply Forall_app. split; [assumption|]. now repeat constructor.
      * now apply setAt_labels.
  - apply commit_invariant; simpl; [assumption | constructor].
Qed.

Lemma reachable_invariant (w : World) : Reachable w -> Invariant w.
Proof.
  induction 1 as [|w w' _ IH HS].
  - constructor; simpl; [reflexivity | reflexivity |].
    repeat constructor; discriminate.
  - exact (step_invariant w w' IH HS).
Qed.

(** C9.  While [isSpinning] is set, or with fewer than [minOptions] = 2
    options, [launchSpin] changes nothing: rotation, options, flag and
    timeouts stay as they are.  Hence in every reachable world a spin
    request that does start a spin finds no timeout of an earlier spin
    outstanding and at least two options; at most one spin timeout is ever
    outstanding, and the flag is set exactly while it is. *)
Theorem no_overlapping_spins (w : World) (u1 u2 u3 : Q) :
  (isSpinning (view w) = true
   \/ (len (options (view w)) < minOptions CONFIG)%Z ->
   launchSpin w u1 u2 u3 = w)
  /\ (Reachable w ->
      (isSpinning (view w) = true
       \/ (len (options (view w)) < minOptions CONFIG)%Z ->
       commit (launchSpin w u1 u2 u3) = w)
      /\ (launchSpin w u1 u2 u3 <> w ->
          spinTimeouts w = 0%nat
          /\ isSpinning (view w) = false
          /\ (2 <= len (options (view w)))%Z
          /\ spinTimeouts (launchSpin w u1 u2 u3) = 1%nat
          /\ isSpinning (view (launchSpin w u1 u2 u3)) = true)
      /\ (spinTimeouts w <= 1)%nat
      /\ (isSpinning (view w) = true <-> spinTimeouts w = 1%nat)).
Proof.
  change (minOptions CONFIG) with 2%Z.
  assert (Hblocked : isSpinning (view w) = true
                     \/ (len (options (view w)) < 2)%Z ->
                     launchSpin w u1 u2 u3 = w).
  { intros [Hs | Hn]; unfold launchSpin.
    - now rewrite Hs.
    - change (minOptions CONFIG) with 2%Z.
      destruct (Z.ltb_spec (len (options (view w))) 2) as [_|]; [|lia].
      now rewrite orb_true_r. }
  split; [exact Hblocked|].
  intros Hreach. destruct (reachable_invariant w Hreach) as [Ht Hp _].
  split; [|split; [|split]].
  - intros Hb. rewrite (Hblocked Hb). now apply commit_idle.
  - intros Hstart.
    destruct (isSpinning (view w)) eqn:Es.
    { exfalso. apply Hstart, Hblocked. now left. }
    destruct (Z.ltb_spec (len (options (view w))) 2) as [Hn | Hn].
    { exfalso. apply Hstart, Hblocked. now right. }
    unfold launchSpin. rewrite Es. change (minOptions CONFIG) with 2%Z.
    destruct (Z.ltb_spec (len (options (view w))) 2) as [|_]; [lia|].
    simpl. rewrite Ht. repeat split; try reflexivity. exact Hn.
  - rewrite Ht. destruct (isSpinning (view w)); lia.
  - rewrite Ht. destruct (isSpinning (view w)); split; congruence.
Qed.

Lemma no_overlapping_spins_witness :
  let w := commit (launchSpin initialWorld (1 # 4) (1 # 2) (3 # 4)) in
  isSpinning (view w) = true
  /\ Reachable w
  /\ commit (launchSpin w 0 0 0) = w.
Proof.
  intros w.
  assert (Hs : isSpinning (view w) = true) by reflexivity.
  assert (Hr : Reachable w).
  { apply (ReachStep initialWorld); [apply ReachInit|].
    apply StepSpin; split; vm_compute; congruence. }
  split; [exact Hs|]. split; [exact Hr|].
  destruct (no_overlapping_spins w 0 0 0) as (_ & H).
  destruct (H Hr) as (Hnoop & _).
  apply Hnoop. left. exact Hs.
Defined.

(** X21.  Adding an option to a non-empty list of a reachable world keeps
    the winner: [handleSubmit] records the label under the pointer, and
    the effect that follows turns the wheel to the centre of that label's
    segment in the longer list. *)
Lemma add_keeps_winner (w : World) :
  Reachable w ->
  options (view w) <> [] ->
  validateOption (options (view w)) (newOption (view w)) false = [] ->
  let w' := commit (handleSubmit w) in
  options (view w')
  = options (view w) ++ [JsString.trim (newOption (view w))]
  /\ getCurrentWinner (options (view w')) (currentRotation (view w'))
     = getCurrentWinner (options (view w)) (currentRotation (view w)).
Proof.
  intros Hreach Hne Hok w'.
  destruct (reachable_invariant w Hreach) as [_ _ Hlabels].
  assert (Hpos : (0 < len (options (view w)))%Z).
  { unfold len. destruct (options (view w)); [contradiction | simpl; lia]. }
  pose proof (winnerIndex_range _ Hpos (currentRotation (view w))) as Hidx.
  destruct (get_in_range _ _ Hidx) as [label Hget].
  pose proof (getCurrentWinner_get _ Hpos (currentRotation (view w))) as Hwin.
  rewrite Hget in Hwin.
  assert (Hin : In label (options (view w))).
  { rewrite get_nth in Hget by lia. eapply nth_error_In; eassumption. }
  assert (Hlabel : label <> []).
  { rewrite Forall_forall in Hlabels. now apply Hlabels. }
  set (st := view (handleSubmit w)).
  assert (Hst : options st
                = options (view w) ++ [JsString.trim (newOption (view w))]
                /\ pendingPreservedWinner st = Some label
                /\ currentRotation st = currentRotation (view w)).
  { unfold st, handleSubmit. rewrite Hok. simpl. rewrite Hwin. auto. }
  destruct Hst as (Ho & Hp & Hr).
  assert (Hin' : In label (options st)).
  { rewrite Ho. apply in_or_app. now left. }
  unfold w', commit. simpl view. fold st.
  rewrite (reconcileEffect_found st label Hp Hlabel Hin'). simpl.
  split; [exact Ho|].
  rewrite Hwin.
  pose proof (indexOf_found _ _ Hin') as Hi.
  rewrite (winner_after_realign _ _ Hi).
  apply indexOf_get. lia.
Qed.

(** * Further properties of the component *)

(** ** The winner as a function of the rotation *)

(** X1.  Only the rotation modulo 360 matters to [getCurrentWinner]:
    adding any whole number of turns, or reducing the rotation with
    [mod_], leaves the winner as it is, for every list. *)
Theorem winner_ignores_full_turns (options : list jsstring) (r : Q) (k : Z) :
  getCurrentWinner options (r + 360 * inject_Z k) = getCurrentWinner options r
  /\ getCurrentWinner options (mod_ r 360) = getCurrentWinner options r.
Proof.
  assert (Hturn : forall j : Z,
             getCurrentWinner options (r + 360 * inject_Z j)
             = getCurrentWinner options r).
  { intros j. unfold getCurrentWinner.
    destruct (len options =? 0)%Z; [reflexivity|].
    f_equal. unfold winnerIndex, JsNum.floor. f_equal.
    apply Qfloor_comp. now rewrite topWheelAngle_turns. }
  split; [apply Hturn|].
  destruct (mod_congruent 360 q360_pos r) as [j Hj].
  rewrite (getCurrentWinner_comp options _ _ Hj). apply Hturn.
Qed.

(** X2.  For a non-empty list [getCurrentWinner] never returns
    [undefined]: at every rotation the result is one of the labels of the
    list; with a single option it is that option. *)
Theorem winner_is_listed (options : list jsstring) (r : Q) :
  options <> [] ->
  (exists label, getCurrentWinner options r = Some label /\ In label options)
  /\ (forall only, options = [only] -> getCurrentWinner options r = Some only).
Proof.
  intros Hne.
  assert (Hpos : (0 < len options)%Z).
  { unfold len. destruct options; [contradiction | simpl; lia]. }
  pose proof (winnerIndex_range options Hpos r) as Hidx.
  destruct (get_in_range _ _ Hidx) as [label Hget].
  assert (Hwin : getCurrentWinner options r = Some label).
  { now rewrite (getCurrentWinner_get options Hpos). }
  assert (Hin : In label options).
  { rewrite get_nth in Hget by lia. eapply nth_error_In; eassumption. }
  split; [now exists label|].
  intros only E. rewrite Hwin. subst options.
  destruct Hin as [E | []]. now subst.
Qed.

Lemma winner_is_listed_witness :
  [js "Tea"] <> []
  /\ getCurrentWinner [js "Tea"] (-7 # 3) = Some (js "Tea").
Proof.
  assert (Hne : [js "Tea"] <> []) by discriminate.
  split; [exact Hne|].
  exact (proj2 (winner_is_listed [js "Tea"] (-7 # 3) Hne) (js "Tea") eq_refl).
Defined.

Lemma gradientAngle_under_pointer (r : Q) :
  gradientAngle (topWheelAngle r) == mod_ (- r) 360.
Proof.
  unfold gradientAngle. rewrite topWheelAngle_direct.
  destruct (mod_congruent 360 q360_pos (POINTER_AT_DEG - r)) as [k Hk].
  rewrite Hk. unfold POINTER_AT_DEG.
  setoid_replace (270 - r + 360 * inject_Z k + 90)
    with (- r + 360 * inject_Z (k + 1)) by qlinear.
  apply mod_add_multiple, q360_pos.
Qed.

Lemma topWheelAngle_quarter_back (r : Q) :
  topWheelAngle (r - 90) == mod_ (- r) 360.
Proof.
  rewrite topWheelAngle_direct. unfold POINTER_AT_DEG.
  setoid_replace (270 - (r - 90)) with (- r + 360 * inject_Z 1) by qlinear.
  apply mod_add_multiple, q360_pos.
Qed.

(** X3.  The colour stops and the pointer.  The stops
    [[segmentStart i, segmentEnd i)] of the gradient start at 0, follow
    one another without gap and end at 360, and each hue is its start
    angle.  The gradient is measured from 12 o'clock and the labels and
    the pointer from 3 o'clock, so at rotation [r] the pointer is over the
    gradient angle [mod (-r) 360], a quarter turn ahead of the wheel
    angle [mod (270 - r) 360] the resolver reads: it is the wheel angle
    the resolver would read at rotation [r - 90].  The colour stop under
    the pointer is a stop of the list, the one whose bounds hold that
    gradient angle. *)
Theorem gradient_stop_under_pointer (options : list jsstring) (r : Q) :
  (0 < len options)%Z ->
  segmentStart options 0 == 0
  /\ segmentEnd options (len options - 1) == 360
  /\ (forall i : Z, segmentEnd options i == segmentStart options (i + 1))
  /\ (forall i : Z, segmentHue options i == segmentStart options i)
  /\ gradientAngle (topWheelAngle r) == mod_ (- r) 360
  /\ (0 <= stopUnderPointer options r < len options)%Z
  /\ (forall i : Z,
        stopUnderPointer options r = i <->
        segmentStart options i <= gradientAngle (topWheelAngle r)
        /\ gradientAngle (topWheelAngle r) < segmentEnd options i)
  /\ gradientAngle (topWheelAngle r) == topWheelAngle (r - 90).
Proof.
  intros Hpos.
  pose proof (segmentAngle_total options Hpos) as Ht.
  pose proof (segmentAngle_pos options Hpos) as Hs.
  unfold segmentStart, segmentEnd, segmentHue.
  split; [ring|].
  split; [unfold Z.sub; qlinear|].
  split; [intros i; qlinear|].
  split; [intros i; reflexivity|].
  split; [apply gradientAngle_under_pointer|].
  unfold stopUnderPointer.
  set (g := gradientAngle (topWheelAngle r)).
  assert (Hg : 0 <= g /\ g < 360) by apply (mod_range 360 q360_pos).
  split; [apply (segment_of_angle_range options Hpos); apply Hg|].
  split.
  - intros i. split.
    + intros E.
      destruct (Qfloor_div_bounds g (segmentAngle options) Hs) as [Hlo Hhi].
      rewrite E in Hlo, Hhi. split; [exact Hlo | qlinear].
    + intros [Hlo Hhi]. apply (segment_of_angle options Hpos); qlinear.
  - unfold g. now rewrite gradientAngle_under_pointer, topWheelAngle_quarter_back.
Qed.

Lemma gradient_stop_under_pointer_witness :
  (0 < len [js "A"; js "B"])%Z
  /\ stopUnderPointer [js "A"; js "B"] 0 = 0%Z
  /\ winnerIndex [js "A"; js "B"] 0 = 1%Z.
Proof.
  assert (Hpos : (0 < len [js "A"; js "B"])%Z) by reflexivity.
  split; [exact Hpos|].
  destruct (gradient_stop_under_pointer [js "A"; js "B"] 0 Hpos)
    as (_ & _ & _ & _ & _ & _ & H & _).
  split; [|reflexivity].
  apply (H 0%Z). split; [vm_compute; discriminate | reflexivity].
Defined.

(** X4.  Reconciliation turns the wheel so that the pointer is exactly
    over the angle at which the label's text is drawn (both angles of the
    [rotate(...)] frame); that angle is the middle of the resolver's
    segment for the label's index, so the resolver reads that index. *)
Theorem realign_centres_label (options : list jsstring) (label : jsstring)
  (r : Q) :
  In label options ->
  let index := JsArray.indexOf options label in
  topWheelAngle (realign options index r) == textRotation options index
  /\ textRotation options index
     == segmentAngle options * inject_Z index + segmentAngle options * (1 # 2)
  /\ segmentAngle options * inject_Z index < textRotation options index
  /\ textRotation options index < segmentAngle options * (inject_Z index + 1)
  /\ winnerIndex options (realign options index r) = index.
Proof.
  intros Hin index.
  pose proof (indexOf_found _ _ Hin) as Hidx. fold index in Hidx.
  assert (Hpos : (0 < len options)%Z) by lia.
  destruct (centerWheelAngle_bounds options index Hidx) as (Hlo & Hhi & _).
  assert (E : centerWheelAngle options index == textRotation options index).
  { unfold centerWheelAngle, textRotation. ring. }
  pose proof (topWheelAngle_realign options index Hidx r) as Htop.
  split; [now rewrite Htop|].
  split; [unfold textRotation; field|].
  rewrite <- E.
  split; [exact Hlo|]. split; [qlinear|].
  rewrite (winnerIndex_floor options Hpos).
  apply (segment_of_angle options Hpos); rewrite Htop; lra.
Qed.

Lemma realign_centres_label_witness :
  In (js "B") [js "A"; js "B"; js "C"]
  /\ topWheelAngle (realign [js "A"; js "B"; js "C"] 1 725) == 180.
Proof.
  assert (Hin : In (js "B") [js "A"; js "B"; js "C"]) by (right; left; reflexivity).
  split; [exact Hin|].
  destruct (realign_centres_label _ _ 725 Hin) as (H & _).
  etransitivity; [exact H | reflexivity].
Defined.

(** ** The reconciliation effect *)

Lemma round_of_integer (k : Z) (x : Q) : x == inject_Z k -> JsNum.round x = k.
Proof.
  intros E. unfold JsNum.round. apply Qfloor_unique; rewrite E; qlinear.
Qed.

(** X5.  Reconciling twice is reconciling once: the realigned rotation is
    a fixed point of [realign], and the effect run on its own result
    changes nothing. *)
Theorem reconcile_idempotent (st : State) (index : Z) (r : Q) :
  realign (options st) index (realign (options st) index r)
  == realign (options st) index r
  /\ reconcileEffect (reconcileEffect st) = reconcileEffect st.
Proof.
  split.
  - unfold realign at 1. cbv zeta.
    set (base := targetBase (options st) index).
    assert (E : JsNum.round ((realign (options st) index r - base) / 360)
                = JsNum.round ((r - base) / 360)).
    { apply round_of_integer. unfold realign. cbv zeta. fold base. field. }
    rewrite E. reflexivity.
  - apply reconcileEffect_idle.
    now destruct (reconcileEffect_frame st) as (_ & _ & H).
Qed.

(** X6.  Edge cases of the effect.  With no pending label, or the empty
    string, it changes nothing; with a pending label that is no longer in
    the list it clears the pending label and leaves the rotation and
    everything else as they were. *)
Theorem reconcile_without_target (st : State) :
  (pendingTruthy (pendingPreservedWinner st) = false ->
   reconcileEffect st = st)
  /\ (forall label,
        pendingPreservedWinner st = Some label -> label <> [] ->
        ~ In label (options st) ->
        let st' := reconcileEffect st in
        pendingPreservedWinner st' = None
        /\ currentRotation st' = currentRotation st
        /\ options st' = options st
        /\ isSpinning st' = isSpinning st
        /\ newOption st' = newOption st
        /\ formError st' = formError st
        /\ showSuccess st' = showSuccess st).
Proof.
  split; [apply reconcileEffect_idle|].
  intros label Hp Hl Hn. cbv zeta. unfold reconcileEffect. rewrite Hp.
  destruct label as [|c rest]; [contradiction|]. simpl negb. cbv iota.
  rewrite (indexOf_missing _ _ Hn). simpl. repeat split.
Qed.

Lemma reconcile_without_target_witness :
  let st := {| options := [js "A"; js "B"]; newOption := [];
               isSpinning := false; currentRotation := 33;
               formError := []; showSuccess := false;
               pendingPreservedWinner := Some (js "Gone") |} in
  ~ In (js "Gone") (options st)
  /\ currentRotation (reconcileEffect st) = 33
  /\ pendingPreservedWinner (reconcileEffect st) = None.
Proof.
  intros st.
  assert (Hn : ~ In (js "Gone") (options st)).
  { simpl. intros [H | [H | []]]; discriminate. }
  split; [exact Hn|].
  destruct (reconcile_without_target st) as (_ & H).
  destruct (H (js "Gone") eq_refl ltac:(discriminate) Hn) as (Hp & Hr & _).
  split; [exact Hr | exact Hp].
Defined.

(** ** Removing and replacing array items *)

Section ArrayUpdates.

Import JsArray.

Lemma removeAt_beyond (a : list jsstring) (i : nat) :
  (List.length a <= i)%nat -> removeAt a i = a.
Proof.
  revert i. induction a as [|y rest IH]; intros [|k]; simpl; intros H;
    try reflexivity; try lia.
  f_equal. apply IH. lia.
Qed.

Lemma removeAt_length (a : list jsstring) (i : nat) :
  (i < List.length a)%nat ->
  List.length (removeAt a i) = pred (List.length a).
Proof.
  revert i. induction a as [|y rest IH]; intros [|k]; simpl; intros H;
    try reflexivity; try lia.
  rewrite IH by lia. destruct rest; simpl in *; lia.
Qed.

Lemma removeAt_nth_before (a : list jsstring) (i j : nat) :
  (j < i)%nat -> nth_error (removeAt a i) j = nth_error a j.
Proof.
  revert i j. induction a as [|y rest IH]; intros [|k] [|j] H; simpl;
    try reflexivity; try lia.
  apply IH. lia.
Qed.

Lemma removeAt_nth_after (a : list jsstring) (i j : nat) :
  (i <= j)%nat -> nth_error (removeAt a i) j = nth_error a (S j).
Proof.
  revert i j. induction a as [|y rest IH]; intros [|k] [|j] H; simpl;
    try reflexivity; try lia; try (now destruct j).
  apply IH. lia.
Qed.

Lemma removeAt_In (a : list jsstring) (i : nat) (x : jsstring) :
  In x (removeAt a i) -> In x a.
Proof.
  revert i. induction a as [|y rest IH]; intros [|k]; simpl; auto.
  intros [E | H]; [now left | right; eauto].
Qed.

Lemma removeAt_NoDup (a : list jsstring) (i : nat) :
  NoDup a -> NoDup (removeAt a i).
Proof.
  intros H. revert i. induction H as [|y rest Hy Hrest IH]; intros [|k];
    simpl; try constructor; auto.
  intros Hin. apply Hy. eapply removeAt_In; eassumption.
Qed.

Lemma removeAt_Forall (P : jsstring -> Prop) (a : list jsstring) (i : nat) :
  Forall P a -> Forall P (removeAt a i).
Proof.
  intros H. revert i.
  induction H as [|y rest Hy Hrest IH]; intros [|k]; simpl; auto.
Qed.

(** An item at another position survives the removal. *)
Lemma removeAt_keeps (a : list jsstring) (i j : nat) (x : jsstring) :
  nth_error a j = Some x -> j <> i -> In x (removeAt a i).
Proof.
  intros Hj Hne.
  destruct (Nat.lt_ge_cases j i) as [Hlt | Hge].
  - apply (nth_error_In _ j). now rewrite removeAt_nth_before.
  - destruct j as [|j]; [lia|].
    apply (nth_error_In _ j). rewrite removeAt_nth_after by lia. exact Hj.
Qed.

Lemma setAt_length (a : list jsstring) (i : nat) (v : jsstring) :
  List.length (setAt a i v) = List.length a.
Proof.
  revert i. induction a as [|y rest IH]; intros [|k]; simpl; auto.
Qed.

Lemma setAt_nth_same (a : list jsstring) (i : nat) (v : jsstring) :
  (i < List.length a)%nat -> nth_error (setAt a i v) i = Some v.
Proof.
  revert i. induction a as [|y rest IH]; intros [|k]; simpl; intros H;
    try reflexivity; try lia.
  apply IH. lia.
Qed.

Lemma setAt_nth_other (a : list jsstring) (i j : nat) (v : jsstring) :
  j <> i -> nth_error (setAt a i v) j = nth_error a j.
Proof.
  revert i j. induction a as [|y rest IH]; intros [|k] [|j] H; simpl;
    try reflexivity; try lia.
  apply IH. lia.
Qed.

Lemma setAt_same (a : list jsstring) (i : nat) (v : jsstring) :
  nth_error a i = Some v -> setAt a i v = a.
Proof.
  revert i. induction a as [|y rest IH]; intros [|k]; simpl; intros H;
    try reflexivity; try discriminate.
  - now inversion H.
  - f_equal. now apply IH.
Qed.

Lemma setAt_In (a : list jsstring) (i : nat) (v x : jsstring) :
  In x (setAt a i v) -> x = v \/ In x a.
Proof.
  revert i. induction a as [|y rest IH]; intros [|k]; simpl; auto.
  - intros [E | H]; auto.
  - intros [E | H]; auto. destruct (IH _ H); auto.
Qed.

Lemma setAt_NoDup (a : list jsstring) (i : nat) (v : jsstring) :
  NoDup a -> ~ In v a -> NoDup (setAt a i v).
Proof.
  intros H. revert i. induction H as [|y rest Hy Hrest IH]; intros [|k] Hv;
    simpl; try constructor; simpl in Hv; try tauto.
  - intros Hin. destruct (setAt_In _ _ _ _ Hin) as [E | Hin']; [|tauto].
    subst. tauto.
  - apply IH. tauto.
Qed.

Lemma setAt_Forall (P : jsstring -> Prop) (a : list jsstring) (i : nat)
  (v : jsstring) :
  P v -> Forall P a -> Forall P (setAt a i v).
Proof.
  intros Hv H. revert i.
  induction H as [|y rest Hy Hrest IH]; intros [|k]; simpl; auto.
Qed.

End ArrayUpdates.

(** The index read by [getCurrentWinner] depends on the list through its
    length only. *)
Lemma winnerIndex_by_length (a b : list jsstring) (r : Q) :
  List.length a = List.length b -> winnerIndex a r = winnerIndex b r.
Proof.
  intros E. unfold winnerIndex, segmentAngle, len. now rewrite E.
Qed.

Lemma commit_options (w : World) :
  options (view (commit w)) = options (view w).
Proof. now destruct (reconcileEffect_frame (view w)) as (Ho & _). Qed.

Lemma launchSpin_few (w : World) (u1 u2 u3 : Q) :
  (len (options (view w)) < minOptions CONFIG)%Z -> launchSpin w u1 u2 u3 = w.
Proof.
  intros H. unfold launchSpin.
  destruct (Z.ltb_spec (len (options (view w))) (minOptions CONFIG)); [|lia].
  now rewrite orb_true_r.
Qed.

Lemma winner_single (only : jsstring) (r : Q) :
  getCurrentWinner [only] r = Some only.
Proof.
  assert (Hpos : (0 < len [only])%Z) by reflexivity.
  pose proof (winnerIndex_range [only] Hpos r) as Hidx.
  rewrite (getCurrentWinner_get [only] Hpos).
  replace (winnerIndex [only] r) with 0%Z by (unfold len in Hidx; simpl in Hidx; lia).
  reflexivity.
Qed.

(** ** Removing, clearing and editing *)

(** X7.  [handleRemoveOption] of the first copy removes exactly the item
    at a listed index (the items before it stay, the later ones move up
    by one) and nothing for an index past the end.  It asks for no
    preservation: rotation, pending label and spinning flag are not
    touched, and there is no minimum guard, so when fewer than two options
    are left the next spin request does nothing. *)
Theorem remove_option_effect (w : World) (index : nat) :
  let st := view w in
  let w' := handleRemoveOption w index in
  let st' := view w' in
  ((index < List.length (options st))%nat ->
   List.length (options st') = pred (List.length (options st))
   /\ (forall j, (j < index)%nat ->
                 nth_error (options st') j = nth_error (options st) j)
   /\ (forall j, (index <= j)%nat ->
                 nth_error (options st') j = nth_error (options st) (S j)))
  /\ ((List.length (options st) <= index)%nat -> options st' = options st)
  /\ currentRotation st' = currentRotation st
  /\ pendingPreservedWinner st' = pendingPreservedWinner st
  /\ isSpinning st' = isSpinning st
  /\ spinTimeouts w' = spinTimeouts w
  /\ ((len (options st') < minOptions CONFIG)%Z ->
      forall u1 u2 u3 : Q,
        launchSpin (commit w') u1 u2 u3 = commit w').
Proof.
  cbv zeta.
  split.
  { intros H. simpl. split; [now apply removeAt_length|].
    split; intros j Hj; [now apply removeAt_nth_before
                        | now apply removeAt_nth_after]. }
  split; [simpl; apply removeAt_beyond|].
  do 4 (split; [reflexivity|]).
  intros Hfew u1 u2 u3. apply launchSpin_few.
  now rewrite commit_options.
Qed.

Lemma remove_option_effect_witness :
  let w := {| view :=
                {| options := [js "A"; js "B"]; newOption := [];
                   isSpinning := false; currentRotation := 10;
                   formError := []; showSuccess := false;
                   pendingPreservedWinner := None |};
              spinTimeouts := 0; successTimeouts := 0 |} in
  (1 < List.length (options (view w)))%nat
  /\ options (view (handleRemoveOption w 1)) = [js "A"]
  /\ launchSpin (commit (handleRemoveOption w 1)) 0 0 0
     = commit (handleRemoveOption w 1).
Proof.
  intros w.
  assert (H1 : (1 < List.length (options (view w)))%nat) by (simpl; lia).
  split; [exact H1|]. split; [reflexivity|].
  destruct (remove_option_effect w 1) as (_ & _ & _ & _ & _ & _ & H).
  apply H. reflexivity.
Defined.

(** X8.  [handleClearOptions] of the first copy empties the list, sets
    the rotation to 0 and drops any pending label, so the effect that
    follows does nothing; a spin in flight keeps its flag and timeout.
    Afterwards the SPIN button is disabled, a spin request does nothing
    and [getCurrentWinner] gives the empty string. *)
Theorem clear_options_effect (w : World) (u1 u2 u3 r : Q) :
  let w' := commit (handleClearOptions w) in
  w' = handleClearOptions w
  /\ options (view w') = []
  /\ currentRotation (view w') = 0
  /\ pendingPreservedWinner (view w') = None
  /\ isSpinning (view w') = isSpinning (view w)
  /\ spinTimeouts w' = spinTimeouts w
  /\ spinDisabled (view w') = true
  /\ minWarningShown (view w') = true
  /\ launchSpin w' u1 u2 u3 = w'
  /\ getCurrentWinner (options (view w')) r = Some [].
Proof.
  cbv zeta.
  assert (E : commit (handleClearOptions w) = handleClearOptions w).
  { apply commit_idle. reflexivity. }
  rewrite E. repeat split.
  - unfold spinDisabled. simpl. apply orb_true_r.
  - unfold launchSpin. simpl. now rewrite orb_true_r.
Qed.

(** X9.  Adding to an empty list.  When the list is empty and the text is
    accepted, the recorded winner is the empty string, which the effect
    treats as no request: the rotation stays, the pending cell is left
    holding the empty string, and the new label, alone on the wheel, is
    the winner at every rotation. *)
Theorem add_to_empty_list (w : World) (r : Q) :
  options (view w) = [] ->
  validateOption (options (view w)) (newOption (view w)) false = [] ->
  let w' := commit (handleSubmit w) in
  options (view w') = [JsString.trim (newOption (view w))]
  /\ currentRotation (view w') = currentRotation (view w)
  /\ pendingPreservedWinner (view w') = Some []
  /\ getCurrentWinner (options (view w')) r
     = Some (JsString.trim (newOption (view w))).
Proof.
  intros He Hok. cbv zeta.
  assert (E : view (commit (handleSubmit w))
              = view (handleSubmit w)).
  { unfold commit. simpl view. apply reconcileEffect_idle.
    unfold handleSubmit. rewrite Hok. simpl. now rewrite He. }
  rewrite E. unfold handleSubmit. rewrite Hok. simpl. rewrite He. simpl.
  repeat split. apply winner_single.
Qed.

Lemma add_to_empty_list_witness :
  let w := {| view :=
                {| options := []; newOption := js " Tea ";
                   isSpinning := false; currentRotation := 77;
                   formError := []; showSuccess := false;
                   pendingPreservedWinner := None |};
              spinTimeouts := 0; successTimeouts := 0 |} in
  options (view w) = []
  /\ validateOption (options (view w)) (newOption (view w)) false = []
  /\ getCurrentWinner (options (view (commit (handleSubmit w)))) 123
     = Some (js "Tea").
Proof.
  intros w.
  assert (He : options (view w) = []) by reflexivity.
  assert (Hok : validateOption (options (view w)) (newOption (view w)) false
                = []) by reflexivity.
  split; [exact He|]. split; [exact Hok|].
  destruct (add_to_empty_list w 123 He Hok) as (_ & _ & _ & H).
  rewrite H. reflexivity.
Defined.

Lemma edit_same_spec (a : list jsstring) (index : nat) (trimmed : jsstring) :
  match nth_error a index with
  | Some c => JsString.eqb trimmed c
  | None => false
  end = true
  <-> nth_error a index = Some trimmed.
Proof.
  destruct (nth_error a index) as [c|]; [|split; discriminate].
  unfold JsString.eqb.
  destruct (JsString.eq_dec trimmed c); split; intros H;
    try reflexivity; try discriminate; try congruence.
Qed.

(** What a stored edit went through. *)
Lemma handleEditOption_stored_valid (w w' : World) (index : nat)
  (answer : option jsstring) :
  (index < List.length (options (view w)))%nat ->
  handleEditOption w index answer = EditStored w' ->
  exists trimmed,
    labelOk trimmed
    /\ (nth_error (options (view w)) index = Some trimmed
        \/ ~ In trimmed (options (view w)))
    /\ (len (options (view w)) < maxOptions CONFIG)%Z
    /\ options (view w') = JsArray.setAt (options (view w)) index trimmed.
Proof.
  intros Hidx. unfold handleEditOption.
  destruct answer as [text|]; [|discriminate].
  destruct (JsString.truthy (JsString.trim text)) eqn:Et; simpl negb;
    cbv iota; [|discriminate].
  set (same := match nth_error (options (view w)) index with
               | Some c => JsString.eqb (JsString.trim text) c
               | None => false
               end).
  pose proof (edit_same_spec (options (view w)) index (JsString.trim text))
    as Hsame. fold same in Hsame.
  destruct (validateOption_cases (options (view w)) (JsString.trim text) same)
    as [(_ & E) | [(_ & _ & E) | [(_ & _ & _ & _ & E)
       | [(_ & _ & _ & _ & E) | (Hne & Hlen & Hdup & Hfree & E)]]]];
    rewrite E; simpl JsString.truthy; cbv iota; try discriminate.
  rewrite TrimFacts.trim_idempotent in *.
  destruct (Nat.leb_spec index (List.length (options (view w)))); [|lia].
  destruct (Nat.eqb_spec index (List.length (options (view w)))); [lia|].
  intros Hst. inversion Hst; subst w'. simpl.
  exists (JsString.trim text). repeat split; try assumption.
  - apply TrimFacts.trim_idempotent.
  - destruct Hdup as [Hs | Hn]; [left; now apply Hsame | now right].
Qed.

(** X10.  Editing while the list is not full.  For a listed index and a
    text whose trimmed form is non-empty and at most 50 long: if the
    trimmed text is the label of another item the edit is refused as a
    duplicate; if it is the item's own label or a new one, it is stored
    in place: the list keeps its length and its other items, the rotation
    and the pending label are untouched, and [getCurrentWinner] reads the
    same index as before at every rotation. *)
Theorem edit_option_effect (w : World) (index : nat) (text : jsstring) :
  (index < List.length (options (view w)))%nat ->
  (len (options (view w)) < maxOptions CONFIG)%Z ->
  JsString.trim text <> [] ->
  (Z.of_nat (List.length (JsString.trim text)) <= maxOptionLength CONFIG)%Z ->
  let trimmed := JsString.trim text in
  (In trimmed (options (view w)) ->
   nth_error (options (view w)) index <> Some trimmed ->
   handleEditOption w index (Some text) = EditAlerted msgDuplicate)
  /\ (nth_error (options (view w)) index = Some trimmed
      \/ ~ In trimmed (options (view w)) ->
      exists w',
        handleEditOption w index (Some text) = EditStored w'
        /\ List.length (options (view w')) = List.length (options (view w))
        /\ nth_error (options (view w')) index = Some trimmed
        /\ (forall j, j <> index ->
              nth_error (options (view w')) j = nth_error (options (view w)) j)
        /\ currentRotation (view w') = currentRotation (view w)
        /\ pendingPreservedWinner (view w') = pendingPreservedWinner (view w)
        /\ (forall r, winnerIndex (options (view w')) r
                      = winnerIndex (options (view w)) r)).
Proof.
  change (maxOptions CONFIG) with 12%Z.
  change (maxOptionLength CONFIG) with 50%Z.
  intros Hidx Hroom Hne Hlen trimmed.
  unfold handleEditOption.
  assert (Et : JsString.truthy (JsString.trim text) = true)
    by now apply TrimFacts.truthy_nonempty.
  rewrite Et. simpl negb. cbv iota.
  set (same := match nth_error (options (view w)) index with
               | Some c => JsString.eqb (JsString.trim text) c
               | None => false
               end).
  pose proof (edit_same_spec (options (view w)) index (JsString.trim text))
    as Hsame. fold same in Hsame.
  fold trimmed in Hne, Hlen, Hsame |- *.
  destruct (Nat.leb_spec index (List.length (options (view w)))); [|lia].
  destruct (Nat.eqb_spec index (List.length (options (view w)))); [lia|].
  destruct (validateOption_cases (options (view w)) trimmed same)
    as [(Hl & E) | [(Hl & Hl' & E) | [(_ & _ & Hs & Hin & E)
       | [(_ & _ & _ & Hfull & E) | (_ & _ & Hdup & _ & E)]]]];
    unfold trimmed in *; rewrite ?TrimFacts.trim_idempotent in *;
    try contradiction; try lia; rewrite E; simpl JsString.truthy; cbv iota.
  - split; [reflexivity|].
    intros [Hown | Hnew]; [|contradiction].
    apply Hsame in Hown. congruence.
  - split.
    + intros Hin Hother. exfalso.
      destruct Hdup as [Hs | Hn]; [|contradiction].
      now apply Hother, Hsame.
    + intros _. eexists. split; [reflexivity|]. simpl.
      split; [apply setAt_length|].
      split; [now apply setAt_nth_same|].
      split; [intros j Hj; now apply setAt_nth_other|].
      split; [reflexivity|]. split; [reflexivity|].
      intros r. apply winnerIndex_by_length, setAt_length.
Qed.

Lemma edit_option_effect_witness :
  let w := {| view :=
                {| options := [js "Tea"; js "Coffee"; js "Cocoa"];
                   newOption := [];
                   isSpinning := false; currentRotation := 200;
                   formError := []; showSuccess := false;
                   pendingPreservedWinner := None |};
              spinTimeouts := 0; successTimeouts := 0 |} in
  (1 < List.length (options (view w)))%nat
  /\ (len (options (view w)) < maxOptions CONFIG)%Z
  /\ handleEditOption w 1 (Some (js " Tea ")) = EditAlerted msgDuplicate.
Proof.
  intros w.
  assert (H1 : (1 < List.length (options (view w)))%nat) by (simpl; lia).
  assert (H2 : (len (options (view w)) < maxOptions CONFIG)%Z) by reflexivity.
  split; [exact H1|]. split; [exact H2|].
  destruct (edit_option_effect w 1 (js " Tea ") H1 H2)
    as (H & _).
  - discriminate.
  - vm_compute. discriminate.
  - apply H.
    + left. reflexivity.
    + discriminate.
Defined.

(** X11.  Any change of the input field leaves the form without an error
    message, whatever it showed before, and touches neither the list nor
    the wheel; in particular the message of a rejected submit is gone
    after the next keystroke. *)
Theorem input_change_clears_error (w : World) (value : jsstring) :
  formError (view (handleInputChange w value)) = []
  /\ formError (view (handleInputChange (handleSubmit w) value)) = []
  /\ newOption (view (handleInputChange w value)) = value
  /\ options (view (handleInputChange w value)) = options (view w)
  /\ currentRotation (view (handleInputChange w value))
     = currentRotation (view w)
  /\ pendingPreservedWinner (view (handleInputChange w value))
     = pendingPreservedWinner (view w).
Proof.
  assert (H : forall x, formError (view (handleInputChange x value)) = []).
  { intros x. simpl. now destruct (formError (view x)). }
  repeat split; apply H.
Qed.

(** ** Well-formed lists along executions *)

Lemma listOk_nil : ListOk [].
Proof. constructor; [constructor | vm_compute; discriminate | constructor]. Qed.

Lemma listOk_defaults : ListOk (defaultOptions CONFIG).
Proof.
  constructor.
  - repeat constructor; simpl; intuition discriminate.
  - vm_compute; discriminate.
  - repeat constructor; try discriminate; vm_compute; discriminate.
Qed.

Lemma listOk_removeAt (a : list jsstring) (index : nat) :
  ListOk a -> ListOk (JsArray.removeAt a index).
Proof.
  intros [Hd Hc Hl]. constructor.
  - now apply removeAt_NoDup.
  - destruct (Nat.lt_ge_cases index (List.length a)) as [Hlt | Hge].
    + unfold len in *. rewrite removeAt_length by exact Hlt. lia.
    + now rewrite removeAt_beyond.
  - now apply removeAt_Forall.
Qed.

Lemma listOk_setAt (a : list jsstring) (index : nat) (v : jsstring) :
  ListOk a -> labelOk v ->
  nth_error a index = Some v \/ ~ In v a ->
  ListOk (JsArray.setAt a index v).
Proof.
  intros Hok Hv [Hown | Hnew]; [now rewrite setAt_same|].
  destruct Hok as [Hd Hc Hl]. constructor.
  - now apply setAt_NoDup.
  - unfold len in *. now rewrite setAt_length.
  - now apply setAt_Forall.
Qed.

(** An accepted text is a well-formed label that the list can take. *)
Lemma listOk_accepted (a : list jsstring) (value : jsstring) :
  ListOk a -> validateOption a value false = [] ->
  ListOk (a ++ [JsString.trim value]).
Proof.
  intros [Hd Hc Hl] Hok.
  destruct (validateOption_cases a value false)
    as [(_ & E) | [(_ & _ & E) | [(_ & _ & _ & _ & E)
       | [(_ & _ & _ & _ & E) | (Hne & Hlen & Hdup & Hroom & _)]]]];
    try (rewrite E in Hok; discriminate).
  destruct Hdup as [Hs | Hnew]; [discriminate|].
  constructor.
  - apply NoDup_app; [exact Hd | repeat constructor; simpl; tauto |].
    intros x Hx [E | []]. now subst.
  - unfold len in *. rewrite length_app. simpl.
    change (maxOptions CONFIG) with 12%Z. lia.
  - apply Forall_app. split; [exact Hl|]. constructor; [|constructor].
    repeat split; [exact Hne | exact Hlen | apply TrimFacts.trim_idempotent].
Qed.

Lemma handleSubmit_listOk (w : World) :
  ListOk (options (view w)) -> ListOk (options (view (handleSubmit w))).
Proof.
  intros Hok. unfold handleSubmit.
  destruct (JsString.truthy
              (validateOption (options (view w)) (newOption (view w)) false))
    eqn:Et; simpl; [exact Hok|].
  apply listOk_accepted; [exact Hok|].
  now apply TrimFacts.truthy_false.
Qed.

Lemma step_listOk (w w' : World) :
  ListOk (options (view w)) -> Step w w' -> ListOk (options (view w')).
Proof.
  intros Hok HS.
  destruct HS as [w u1 u2 u3 _ _ _ | w Hpos | w | w _ | w value | w index _
                  | w index answer w1 Hidx Hedit | w];
    rewrite commit_options.
  - now rewrite launchSpin_options.
  - exact Hok.
  - now apply handleSubmit_listOk.
  - exact Hok.
  - exact Hok.
  - now apply listOk_removeAt.
  - destruct (handleEditOption_stored_valid _ _ _ _ Hidx Hedit)
      as (trimmed & Hl & Hfree & _ & Ho).
    rewrite Ho. now apply listOk_setAt.
  - apply listOk_nil.
Qed.

(** X12.  In every reachable state of the first copy the option list is
    well-formed: no label occurs twice, there are at most 12 labels, and
    each label is non-empty, at most 50 code units long and already
    trimmed; so the "slots left" count is never negative.  (There is no
    lower bound: the list can be emptied.) *)
Theorem reachable_list_wellformed (w : World) :
  Reachable w ->
  NoDup (options (view w))
  /\ (len (options (view w)) <= 12)%Z
  /\ (forall label, In label (options (view w)) ->
        label <> []
        /\ (Z.of_nat (List.length label) <= 50)%Z
        /\ JsString.trim label = label)
  /\ (0 <= slotsLeft (view w))%Z.
Proof.
  intros Hreach.
  assert (Hok : ListOk (options (view w))).
  { induction Hreach as [|w w' _ IH HS].
    - apply listOk_defaults.
    - exact (step_listOk w w' IH HS). }
  destruct Hok as [Hd Hc Hl]. change (maxOptions CONFIG) with 12%Z in Hc.
  split; [exact Hd|]. split; [exact Hc|]. split.
  - intros label Hin. rewrite Forall_forall in Hl. exact (Hl label Hin).
  - unfold slotsLeft. change (maxOptions CONFIG) with 12%Z. lia.
Qed.

Lemma reachable_list_wellformed_witness :
  let w := commit (handleClearOptions initialWorld) in
  Reachable w /\ (0 <= slotsLeft (view w))%Z.
Proof.
  intros w.
  assert (Hr : Reachable w).
  { apply (ReachStep initialWorld); [apply ReachInit | apply StepClear]. }
  split; [exact Hr|].
  exact (proj2 (proj2 (proj2 (reachable_list_wellformed w Hr)))).
Defined.

(** X13.  A request to preserve the winner never outlives the render
    that follows it: in every reachable state the pending cell is [null]
    or the empty string, the effect has nothing to do, and labels are
    non-empty, so a recorded winner of a non-empty list is always acted
    upon. *)
Theorem pending_is_consumed (w : World) :
  Reachable w ->
  (pendingPreservedWinner (view w) = None
   \/ pendingPreservedWinner (view w) = Some [])
  /\ commit w = w
  /\ (options (view w) <> [] ->
      forall r, exists label,
        getCurrentWinner (options (view w)) r = Some label /\ label <> []).
Proof.
  intros Hreach.
  destruct (reachable_invariant w Hreach) as [_ Hp Hl].
  split.
  - destruct (pendingPreservedWinner (view w)) as [[|c rest]|];
      [now right | discriminate | now left].
  - split; [now apply commit_idle|].
    intros Hne r.
    assert (Hpos : (0 < len (options (view w)))%Z).
    { unfold len. destruct (options (view w)); [contradiction | simpl; lia]. }
    pose proof (winnerIndex_range _ Hpos r) as Hidx.
    destruct (get_in_range _ _ Hidx) as [label Hget].
    exists label. rewrite (getCurrentWinner_get _ Hpos). split; [exact Hget|].
    rewrite get_nth in Hget by lia.
    rewrite Forall_forall in Hl. apply Hl. eapply nth_error_In; eassumption.
Qed.

Lemma pending_is_consumed_witness :
  let w := commit (handleSubmit
                     (commit (handleInputChange initialWorld (js "Tea")))) in
  Reachable w /\ commit w = w.
Proof.
  intros w.
  assert (Hr : Reachable w).
  { eapply ReachStep; [eapply ReachStep; [apply ReachInit|]|].
    - apply StepInput.
    - apply StepSubmit. }
  split; [exact Hr|].
  exact (proj1 (proj2 (pending_is_consumed w Hr))).
Defined.

(** ** Spinning *)

Lemma spinCount_range (u : Q) : unitDraw u -> (3 <= spinCount u <= 6)%Z.
Proof.
  intros [Hlo Hhi]. unfold spinCount, JsNum.floor.
  change (inject_Z (maxRotations CONFIG - minRotations CONFIG + 1)) with 4.
  change (minRotations CONFIG) with 3%Z.
  assert (H0 : (Qfloor 0 <= Qfloor (u * 4))%Z) by (apply Qfloor_resp_le; lra).
  assert (H1 : (Qfloor (u * 4) < 4)%Z).
  { rewrite Zlt_Qlt. eapply Qle_lt_trans; [apply Qfloor_le|].
    change (inject_Z 4) with 4. lra. }
  change (Qfloor 0) with 0%Z in H0. lia.
Qed.

Lemma targetAngle_range (options : list jsstring) (u1 u2 : Q) :
  (2 <= len options)%Z -> unitDraw u1 -> unitDraw u2 ->
  0 < targetAngle options u1 u2 /\ targetAngle options u1 u2 < 360.
Proof.
  intros Hn Hu1 Hu2.
  assert (Hpos : (0 < len options)%Z) by lia.
  pose proof (segmentAngle_pos options Hpos) as Hs.
  pose proof (segmentAngle_total options Hpos) as Ht.
  pose proof (spinMargin_tenth options) as Hm.
  destruct (offsetWithinSegment_bounds options Hn u2 Hu2) as [Hlo Hhi].
  destruct (spinSegmentIndex_range options Hn u1 Hu1) as [Hi0 Hi1].
  set (i := spinSegmentIndex options u1) in *.
  assert (H0 : 0 <= inject_Z i * segmentAngle options).
  { apply Qmult_le_0_compat; [|lra]. now rewrite <- (Zle_Qle 0). }
  assert (H1 : inject_Z i * segmentAngle options
               <= inject_Z (len options - 1) * segmentAngle options).
  { apply Qmult_le_compat_r; [|lra]. rewrite <- Zle_Qle. lia. }
  unfold Z.sub in H1. unfold targetAngle. fold i. split; qlinear.
Qed.

(** X14.  A spin that starts turns the wheel forward by between three and
    seven full turns: with at least two options and draws in [[0, 1)] the
    turn count is 3, 4, 5 or 6, the picked local angle lies strictly
    inside one turn, and the new rotation exceeds the old one by more
    than 1080 and less than 2520 degrees; the list is left alone and the
    spinning flag is set. *)
Theorem spin_turns_forward (w : World) (u1 u2 u3 : Q) :
  spinDisabled (view w) = false ->
  unitDraw u1 -> unitDraw u2 -> unitDraw u3 ->
  let w' := launchSpin w u1 u2 u3 in
  (3 <= spinCount u3 <= 6)%Z
  /\ (0 < targetAngle (options (view w)) u1 u2
      /\ targetAngle (options (view w)) u1 u2 < 360)
  /\ currentRotation (view w')
     = currentRotation (view w) + randomDegrees (options (view w)) u1 u2 u3
  /\ currentRotation (view w) + 1080 < currentRotation (view w')
  /\ currentRotation (view w') < currentRotation (view w) + 2520
  /\ options (view w') = options (view w)
  /\ isSpinning (view w') = true.
Proof.
  unfold spinDisabled. intros Hen Hu1 Hu2 Hu3. cbv zeta.
  apply orb_false_elim in Hen as [Hs Hn].
  assert (Hlen : (2 <= len (options (view w)))%Z).
  { change (minOptions CONFIG) with 2%Z in Hn.
    destruct (Z.ltb_spec (len (options (view w))) 2); [discriminate | lia]. }
  pose proof (spinCount_range u3 Hu3) as [Hc0 Hc1].
  pose proof (targetAngle_range _ u1 u2 Hlen Hu1 Hu2) as [Ht0 Ht1].
  unfold launchSpin. rewrite Hs, Hn. simpl.
  split; [lia|]. split; [split; assumption|]. split; [reflexivity|].
  assert (H3 : 3 <= inject_Z (spinCount u3)).
  { change 3 with (inject_Z 3). now rewrite <- Zle_Qle. }
  assert (H6 : inject_Z (spinCount u3) <= 6).
  { change 6 with (inject_Z 6). now rewrite <- Zle_Qle. }
  unfold randomDegrees. repeat split; lra.
Qed.

Lemma spin_turns_forward_witness :
  spinDisabled (view initialWorld) = false
  /\ unitDraw (1 # 4) /\ unitDraw (1 # 2) /\ unitDraw (3 # 4)
  /\ 1080 < currentRotation
              (view (launchSpin initialWorld (1 # 4) (1 # 2) (3 # 4))).
Proof.
  assert (Hen : spinDisabled (view initialWorld) = false) by reflexivity.
  assert (Hu1 : unitDraw (1 # 4)) by (split; vm_compute; congruence).
  assert (Hu2 : unitDraw (1 # 2)) by (split; vm_compute; congruence).
  assert (Hu3 : unitDraw (3 # 4)) by (split; vm_compute; congruence).
  split; [exact Hen|]. split; [exact Hu1|]. split; [exact Hu2|].
  split; [exact Hu3|].
  destruct (spin_turns_forward initialWorld _ _ _ Hen Hu1 Hu2 Hu3)
    as (_ & _ & _ & H & _).
  exact H.
Defined.

(** X15.  The SPIN button and [launchSpin] agree: the button is disabled
    exactly in the states where a spin request changes nothing.  A spin
    that starts disables the button, and the expiry of its timeout
    enables it again. *)
Theorem spin_button_matches_guard (w : World) (u1 u2 u3 : Q) :
  (spinDisabled (view w) = true <-> launchSpin w u1 u2 u3 = w)
  /\ (spinDisabled (view w) = false ->
      spinDisabled (view (launchSpin w u1 u2 u3)) = true
      /\ spinTimeouts (launchSpin w u1 u2 u3) = S (spinTimeouts w)
      /\ spinDisabled (view (spinTimeout (launchSpin w u1 u2 u3))) = false
      /\ spinTimeouts (spinTimeout (launchSpin w u1 u2 u3)) = spinTimeouts w).
Proof.
  unfold spinDisabled, launchSpin.
  destruct (isSpinning (view w)
            || (len (options (view w)) <? minOptions CONFIG)%Z)%bool eqn:E.
  - split; [split; reflexivity | discriminate].
  - split.
    + split; [discriminate|]. intros H. exfalso.
      apply (f_equal spinTimeouts) in H. simpl in H. lia.
    + intros _. apply orb_false_elim in E as [_ En].
      simpl. repeat split; try reflexivity; exact En.
Qed.

Lemma spin_button_matches_guard_witness :
  spinDisabled (view initialWorld) = false
  /\ spinDisabled (view (launchSpin initialWorld 0 0 0)) = true.
Proof.
  assert (Hen : spinDisabled (view initialWorld) = false) by reflexivity.
  split; [exact Hen|].
  exact (proj1 (proj2 (spin_button_matches_guard initialWorld 0 0 0) Hen)).
Defined.

(** ** Adding *)

(** X16.  The Add Option button and the validator: the button is
    disabled exactly when the trimmed input is empty or the list holds 12
    labels, and then a submit would be rejected; when it is enabled a
    submit can still be rejected, but only as too long or as a
    duplicate. *)
Theorem add_button_and_validator (w : World) :
  let st := view w in
  let error := validateOption (options st) (newOption st) false in
  (addDisabled st = true <->
     JsString.trim (newOption st) = [] \/ (len (options st) >= 12)%Z)
  /\ (addDisabled st = true -> error <> [])
  /\ (addDisabled st = false ->
      error = [] \/ error = msgTooLong \/ error = msgDuplicate).
Proof.
  cbv zeta. unfold addDisabled.
  change (maxOptions CONFIG) with 12%Z.
  pose proof msgs_nonempty as (Ne & Nl & Nd & Nf).
  destruct (validateOption_cases (options (view w)) (newOption (view w)) false)
    as [(Hl & E) | [(Hl & Hlen & E) | [(Hl & Hlen & _ & Hin & E)
       | [(Hl & Hlen & _ & Hfull & E) | (Hl & Hlen & _ & Hroom & E)]]]];
    rewrite E;
    destruct (JsString.truthy (JsString.trim (newOption (view w)))) eqn:Et;
    try (apply TrimFacts.truthy_nonempty in Et);
    try (apply TrimFacts.truthy_false in Et);
    try contradiction;
    destruct (Z.geb_spec (len (options (view w))) 12);
    simpl; repeat split; intros;
    repeat match goal with
           | H : _ \/ _ |- _ => destruct H
           end;
    try reflexivity; try discriminate; try congruence; try lia; auto.
Qed.

Lemma add_button_and_validator_witness :
  addDisabled (view initialWorld) = true
  /\ validateOption (options (view initialWorld))
       (newOption (view initialWorld)) false <> [].
Proof.
  assert (Hd : addDisabled (view initialWorld) = true) by reflexivity.
  split; [exact Hd|].
  exact (proj1 (proj2 (add_button_and_validator initialWorld)) Hd).
Defined.

Lemma add_keeps_winner_witness :
  let w := commit (handleInputChange initialWorld (js "Tea")) in
  Reachable w
  /\ options (view w) <> []
  /\ validateOption (options (view w)) (newOption (view w)) false = []
  /\ getCurrentWinner (options (view (commit (handleSubmit w))))
       (currentRotation (view (commit (handleSubmit w))))
     = getCurrentWinner (options (view w)) (currentRotation (view w)).
Proof.
  intros w.
  assert (Hr : Reachable w).
  { apply (ReachStep initialWorld); [apply ReachInit | apply StepInput]. }
  assert (Hne : options (view w) <> []) by discriminate.
  assert (Hok : validateOption (options (view w)) (newOption (view w)) false
                = []) by reflexivity.
  split; [exact Hr|]. split; [exact Hne|]. split; [exact Hok|].
  exact (proj2 (add_keeps_winner w Hr Hne Hok)).
Defined.

(** ** The patched component *)

Lemma patched_validateOption_same (options : list jsstring) (value : jsstring) :
  Patched.validateOption options value = validateOption options value false.
Proof. reflexivity. Qed.

Lemma patched_commit_frame (pw : Patched.PWorld) :
  let pw' := Patched.commit pw in
  options (Patched.base (Patched.pview pw'))
  = options (Patched.base (Patched.pview pw))
  /\ isSpinning (Patched.base (Patched.pview pw'))
     = isSpinning (Patched.base (Patched.pview pw))
  /\ pendingTruthy
       (pendingPreservedWinner (Patched.base (Patched.pview pw'))) = false
  /\ Patched.spinCallbacks pw' = Patched.spinCallbacks pw
  /\ Patched.winner (Patched.pview pw') = Patched.winner (Patched.pview pw)
  /\ Patched.showResult (Patched.pview pw')
     = Patched.showResult (Patched.pview pw).
Proof.
  cbv zeta. simpl.
  destruct (reconcileEffect_frame (Patched.base (Patched.pview pw)))
    as (Ho & Hs & Hp).
  repeat split; assumption.
Qed.

Lemma patched_commit_idle (pw : Patched.PWorld) :
  pendingTruthy (pendingPreservedWinner (Patched.base (Patched.pview pw)))
  = false ->
  Patched.commit pw = pw.
Proof.
  intros H. unfold Patched.commit. rewrite (reconcileEffect_idle _ H).
  destruct pw as [[b wn sr] cb sc]. reflexivity.
Qed.

Lemma patched_commit_invariant (pw : Patched.PWorld) :
  List.length (Patched.spinCallbacks pw)
  = (if isSpinning (Patched.base (Patched.pview pw)) then 1%nat else 0%nat) ->
  ListOk (options (Patched.base (Patched.pview pw))) ->
  (minOptions CONFIG <= len (options (Patched.base (Patched.pview pw))))%Z ->
  Patched.PInvariant (Patched.commit pw).
Proof.
  intros Hc Hl Hm.
  destruct (patched_commit_frame pw) as (Ho & Hs & Hp & Hcb & _).
  constructor.
  - now rewrite Hcb, Hs.
  - exact Hp.
  - now rewrite Ho.
  - now rewrite Ho.
Qed.

Lemma patched_step_invariant (pw pw' : Patched.PWorld) :
  Patched.PInvariant pw -> Patched.Step pw pw' -> Patched.PInvariant pw'.
Proof.
  intros [Hc Hp Hl Hm] HS.
  change (minOptions CONFIG) with 2%Z in Hm.
  destruct HS as [pw u1 u2 u3 _ _ _ | pw Hcb | pw | pw _ | pw value
                  | pw index Hidx | pw | pw].
  - (* spin *)
    unfold Patched.launchSpin.
    destruct (isSpinning (Patched.base (Patched.pview pw))
              || (len (options (Patched.base (Patched.pview pw)))
                  <? minOptions CONFIG)%Z)%bool eqn:E.
    { apply patched_commit_invariant; assumption. }
    apply orb_false_elim in E as [Es _]. rewrite Es in Hc.
    apply patched_commit_invariant; simpl; [|exact Hl | exact Hm].
    rewrite length_app, Hc. reflexivity.
  - (* spin timeout *)
    unfold Patched.spinTimeout.
    destruct (Patched.spinCallbacks pw) as [|[launched rot] rest] eqn:Ecb;
      [contradiction|].
    apply patched_commit_invariant; simpl; [|exact Hl | exact Hm].
    simpl in Hc.
    destruct (isSpinning (Patched.base (Patched.pview pw))); lia.
  - (* submit *)
    unfold Patched.handleSubmit. rewrite patched_validateOption_same.
    destruct (JsString.truthy
                (validateOption (options (Patched.base (Patched.pview pw)))
                   (newOption (Patched.base (Patched.pview pw))) false))
      eqn:Et.
    { apply patched_commit_invariant; simpl; assumption. }
    apply patched_commit_invariant; simpl.
    + exact Hc.
    + apply listOk_accepted; [exact Hl | now apply TrimFacts.truthy_false].
    + unfold len in *. rewrite length_app. simpl.
      change (minOptions CONFIG) with 2%Z. lia.
  - apply patched_commit_invariant; simpl; assumption.
  - apply patched_commit_invariant; simpl; assumption.
  - (* remove *)
    unfold Patched.handleRemoveOption.
    change (minOptions CONFIG) with 2%Z.
    destruct (Z.gtb_spec (len (options (Patched.base (Patched.pview pw)))) 2)
      as [Hgt | Hle].
    + apply patched_commit_invariant; simpl.
      * exact Hc.
      * now apply listOk_removeAt.
      * unfold len in *. rewrite removeAt_length by exact Hidx.
        change (minOptions CONFIG) with 2%Z. lia.
    + apply patched_commit_invariant; assumption.
  - (* reset to the defaults *)
    apply patched_commit_invariant; simpl.
    + exact Hc.
    + apply listOk_defaults.
    + vm_compute. discriminate.
  - apply patched_commit_invariant; simpl; assumption.
Qed.

Lemma patched_reachable_invariant (pw : Patched.PWorld) :
  Patched.Reachable pw -> Patched.PInvariant pw.
Proof.
  induction 1 as [|pw pw' _ IH HS].
  - constructor; simpl; try reflexivity; try apply listOk_defaults;
      try (vm_compute; discriminate).
  - exact (patched_step_invariant pw pw' IH HS).
Qed.

(** X17.  In every reachable state of the patched copy the option list
    has between 2 and 12 labels, all different, non-empty, at most 50
    long and trimmed; so the SPIN button is disabled only while a spin is
    running, and the "add at least 2 options" warning is never shown. *)
Theorem patched_list_bounds (pw : Patched.PWorld) :
  Patched.Reachable pw ->
  let st := Patched.base (Patched.pview pw) in
  (2 <= len (options st) <= 12)%Z
  /\ NoDup (options st)
  /\ (forall label, In label (options st) ->
        label <> []
        /\ (Z.of_nat (List.length label) <= 50)%Z
        /\ JsString.trim label = label)
  /\ spinDisabled st = isSpinning st
  /\ minWarningShown st = false.
Proof.
  intros Hreach st.
  destruct (patched_reachable_invariant pw Hreach) as [_ _ [Hd Hc Hl] Hm].
  fold st in Hd, Hc, Hl, Hm.
  change (minOptions CONFIG) with 2%Z in Hm.
  change (maxOptions CONFIG) with 12%Z in Hc.
  assert (Hlt : (len (options st) <? minOptions CONFIG)%Z = false).
  { change (minOptions CONFIG) with 2%Z.
    destruct (Z.ltb_spec (len (options st)) 2); [lia | reflexivity]. }
  split; [lia|]. split; [exact Hd|]. split.
  - intros label Hin. rewrite Forall_forall in Hl. exact (Hl label Hin).
  - unfold spinDisabled, minWarningShown. rewrite Hlt.
    split; [apply orb_false_r | reflexivity].
Qed.

Lemma patched_list_bounds_witness :
  let pw := Patched.commit (Patched.handleRemoveOption Patched.initialPWorld 0) in
  Patched.Reachable pw
  /\ (2 <= len (options (Patched.base (Patched.pview pw))))%Z.
Proof.
  intros pw.
  assert (Hr : Patched.Reachable pw).
  { apply (Patched.ReachStep Patched.initialPWorld);
      [apply Patched.ReachInit|].
    apply Patched.StepRemove. simpl. lia. }
  split; [exact Hr|].
  exact (proj1 (proj1 (patched_list_bounds pw Hr))).
Defined.

Lemma removeAt_drops (a : list jsstring) (i : nat) (x : jsstring) :
  NoDup a -> nth_error a i = Some x -> ~ In x (JsArray.removeAt a i).
Proof.
  intros Hd. revert i.
  induction Hd as [|y rest Hy Hrest IH]; intros [|k] Hx; simpl in *;
    try discriminate.
  - inversion Hx; subst. exact Hy.
  - intros [E | Hin].
    + subst. apply Hy. eapply nth_error_In; eassumption.
    + exact (IH k Hx Hin).
Qed.

Lemma reconcileEffect_missing (st : State) (label : jsstring) :
  pendingPreservedWinner st = Some label -> label <> [] ->
  ~ In label (options st) ->
  currentRotation (reconcileEffect st) = currentRotation st
  /\ pendingPreservedWinner (reconcileEffect st) = None.
Proof.
  intros Hp Hl Hn. unfold reconcileEffect. rewrite Hp.
  destruct label as [|c rest]; [contradiction|]. simpl negb. cbv iota.
  rewrite (indexOf_missing _ _ Hn). simpl. split; reflexivity.
Qed.

(** X18.  Removing in the patched copy keeps the winner.  In a reachable
    state with more than two options, removing a listed item other than
    the one under the pointer leaves, once the effect has run, the same
    label under the pointer; removing the item under the pointer leaves
    the rotation as it was and clears the request. *)
Theorem patched_remove_keeps_winner (pw : Patched.PWorld) (index : nat) :
  Patched.Reachable pw ->
  (index < List.length (options (Patched.base (Patched.pview pw))))%nat ->
  Patched.removeDisabled (Patched.base (Patched.pview pw)) = false ->
  let st := Patched.base (Patched.pview pw) in
  let st' :=
    Patched.base
      (Patched.pview (Patched.commit (Patched.handleRemoveOption pw index))) in
  let before := getCurrentWinner (options st) (currentRotation st) in
  options st' = JsArray.removeAt (options st) index
  /\ pendingPreservedWinner st' = None
  /\ (nth_error (options st) index <> before ->
      getCurrentWinner (options st') (currentRotation st') = before)
  /\ (nth_error (options st) index = before ->
      currentRotation st' = currentRotation st).
Proof.
  intros Hreach Hidx Hen st st' before.
  destruct (patched_reachable_invariant pw Hreach) as [_ _ [Hd _ Hl] Hm].
  fold st in Hd, Hl, Hm, Hidx.
  assert (Hgt : (len (options st) >? minOptions CONFIG)%Z = true).
  { unfold Patched.removeDisabled in Hen. fold st in Hen.
    destruct (Z.leb_spec (len (options st)) (minOptions CONFIG));
      [discriminate|].
    destruct (Z.gtb_spec (len (options st)) (minOptions CONFIG)); [reflexivity | lia]. }
  assert (Hpos : (0 < len (options st))%Z).
  { change (minOptions CONFIG) with 2%Z in Hm. lia. }
  pose proof (winnerIndex_range _ Hpos (currentRotation st)) as Hj.
  destruct (get_in_range _ _ Hj) as [label Hget].
  assert (Hwin : before = Some label).
  { unfold before. now rewrite (getCurrentWinner_get _ Hpos). }
  rewrite get_nth in Hget by lia.
  assert (Hlabel : label <> []).
  { rewrite Forall_forall in Hl.
    apply (Hl label); eapply nth_error_In; eassumption. }
  set (mid := Patched.base (Patched.pview (Patched.handleRemoveOption pw index))).
  assert (Hmid : options mid = JsArray.removeAt (options st) index
                 /\ pendingPreservedWinner mid = Some label
                 /\ currentRotation mid = currentRotation st).
  { unfold mid, Patched.handleRemoveOption. fold st. rewrite Hgt. simpl.
    fold before. auto. }
  destruct Hmid as (Ho & Hp & Hr).
  assert (Est : st' = reconcileEffect mid) by reflexivity.
  destruct (reconcileEffect_frame mid) as (Ho' & _ & _).
  rewrite Est, Hwin.
  split; [now rewrite Ho', Ho|].
  split.
  { destruct (in_dec JsString.eq_dec label (options mid)) as [Hin | Hn].
    - now rewrite (reconcileEffect_found mid label Hp Hlabel Hin).
    - now destruct (reconcileEffect_missing mid label Hp Hlabel Hn). }
  split.
  - intros Hother.
    assert (Hin : In label (options mid)).
    { rewrite Ho.
      apply (removeAt_keeps _ index (Z.to_nat (winnerIndex (options st)
                                                 (currentRotation st))));
        [exact Hget|].
      intros E. apply Hother. now rewrite <- E. }
    rewrite (reconcileEffect_found mid label Hp Hlabel Hin). simpl.
    pose proof (indexOf_found _ _ Hin) as Hi.
    rewrite (winner_after_realign _ _ Hi).
    apply indexOf_get. lia.
  - intros Hown.
    assert (Hn : ~ In label (options mid)).
    { rewrite Ho. now apply removeAt_drops. }
    destruct (reconcileEffect_missing mid label Hp Hlabel Hn) as (Hr' & _).
    now rewrite Hr'.
Qed.

Lemma patched_remove_keeps_winner_witness :
  let pw := Patched.commit
              (Patched.handleSubmit
                 (Patched.commit
                    (Patched.handleInputChange Patched.initialPWorld
                       (js "Tea")))) in
  Patched.Reachable pw
  /\ (0 < List.length (options (Patched.base (Patched.pview pw))))%nat
  /\ Patched.removeDisabled (Patched.base (Patched.pview pw)) = false
  /\ options (Patched.base (Patched.pview
                (Patched.commit (Patched.handleRemoveOption pw 0))))
     = [js "Option 2"; js "Tea"].
Proof.
  intros pw.
  assert (Hr : Patched.Reachable pw).
  { eapply Patched.ReachStep;
      [eapply Patched.ReachStep; [apply Patched.ReachInit|]|].
    - apply Patched.StepInput.
    - apply Patched.StepSubmit. }
  assert (Hidx : (0 < List.length
                        (options (Patched.base (Patched.pview pw))))%nat).
  { unfold pw. rewrite (proj1 (patched_commit_frame _)). simpl. lia. }
  assert (Hen : Patched.removeDisabled (Patched.base (Patched.pview pw))
                = false).
  { unfold Patched.removeDisabled, pw.
    rewrite (proj1 (patched_commit_frame _)). reflexivity. }
  split; [exact Hr|]. split; [exact Hidx|]. split; [exact Hen|].
  destruct (patched_remove_keeps_winner pw 0 Hr Hidx Hen) as (Ho & _).
  rewrite Ho. unfold pw. rewrite (proj1 (patched_commit_frame _)).
  reflexivity.
Defined.

(** X19.  The minimum guard of the patched copy.  With two options or
    fewer [handleRemoveOption] changes nothing, and for a listed index it
    changes nothing only then: the remove buttons are disabled exactly
    when a removal would be ignored. *)
Theorem patched_remove_guard (pw : Patched.PWorld) (index : nat) :
  (index < List.length (options (Patched.base (Patched.pview pw))))%nat ->
  (Patched.removeDisabled (Patched.base (Patched.pview pw)) = true <->
   Patched.handleRemoveOption pw index = pw)
  /\ (Patched.removeDisabled (Patched.base (Patched.pview pw)) = false ->
      List.length
        (options (Patched.base
                    (Patched.pview (Patched.handleRemoveOption pw index))))
      = pred (List.length (options (Patched.base (Patched.pview pw))))).
Proof.
  intros Hidx. unfold Patched.removeDisabled, Patched.handleRemoveOption.
  destruct (Z.leb_spec (len (options (Patched.base (Patched.pview pw))))
                       (minOptions CONFIG)) as [Hle | Hgt];
    destruct (Z.gtb_spec (len (options (Patched.base (Patched.pview pw))))
                         (minOptions CONFIG)); try lia.
  - split; [split; reflexivity | discriminate].
  - split.
    + split; [discriminate|]. intros E. exfalso.
      apply (f_equal (fun x => List.length
                                 (options (Patched.base (Patched.pview x)))))
        in E.
      simpl in E. rewrite removeAt_length in E by exact Hidx. lia.
    + intros _. simpl. now apply removeAt_length.
Qed.

Lemma patched_remove_guard_witness :
  (0 < List.length
         (options (Patched.base (Patched.pview Patched.initialPWorld))))%nat
  /\ Patched.handleRemoveOption Patched.initialPWorld 0
     = Patched.initialPWorld.
Proof.
  assert (Hidx : (0 < List.length
                        (options (Patched.base
                                    (Patched.pview Patched.initialPWorld))))%nat)
    by (simpl; lia).
  split; [exact Hidx|].
  apply (proj1 (patched_remove_guard Patched.initialPWorld 0 Hidx)).
  reflexivity.
Defined.

(** X20.  The announced winner of the patched copy.  From a reachable
    state in which the SPIN button is enabled, a spin clears the previous
    result and closes the dialog; when its timeout fires with no other
    action in between, the dialog opens, the spinning flag is cleared and
    the announced winner is the label under the pointer at the rotation
    the wheel was sent to, a label of the list. *)
Theorem patched_announced_winner (pw : Patched.PWorld) (u1 u2 u3 : Q) :
  Patched.Reachable pw ->
  spinDisabled (Patched.base (Patched.pview pw)) = false ->
  let running := Patched.commit (Patched.launchSpin pw u1 u2 u3) in
  let done := Patched.commit (Patched.spinTimeout running) in
  let st := Patched.base (Patched.pview done) in
  Patched.winner (Patched.pview running) = None
  /\ Patched.showResult (Patched.pview running) = false
  /\ isSpinning (Patched.base (Patched.pview running)) = true
  /\ Patched.showResult (Patched.pview done) = true
  /\ isSpinning st = false
  /\ Patched.spinCallbacks done = []
  /\ currentRotation st
     = currentRotation (Patched.base (Patched.pview pw))
       + randomDegrees (options (Patched.base (Patched.pview pw))) u1 u2 u3
  /\ Patched.winner (Patched.pview done)
     = getCurrentWinner (options st) (currentRotation st)
  /\ exists label,
       Patched.winner (Patched.pview done) = Some label
       /\ In label (options st).
Proof.
  intros Hreach Hen. cbv zeta.
  destruct (patched_reachable_invariant pw Hreach) as [Hc Hp _ Hm].
  unfold spinDisabled in Hen.
  assert (Hs : isSpinning (Patched.base (Patched.pview pw)) = false).
  { now apply orb_false_elim in Hen as [Hs _]. }
  rewrite Hs in Hc.
  assert (Hcb : Patched.spinCallbacks pw = []).
  { destruct (Patched.spinCallbacks pw); [reflexivity | discriminate]. }
  assert (E1 : Patched.commit (Patched.launchSpin pw u1 u2 u3)
               = Patched.launchSpin pw u1 u2 u3).
  { apply patched_commit_idle. unfold Patched.launchSpin. rewrite Hen.
    exact Hp. }
  rewrite E1.
  assert (E2 : Patched.commit
                 (Patched.spinTimeout (Patched.launchSpin pw u1 u2 u3))
               = Patched.spinTimeout (Patched.launchSpin pw u1 u2 u3)).
  { apply patched_commit_idle. unfold Patched.launchSpin. rewrite Hen.
    unfold Patched.spinTimeout. simpl. rewrite Hcb. simpl. exact Hp. }
  rewrite E2.
  unfold Patched.launchSpin. rewrite Hen.
  unfold Patched.spinTimeout. simpl. rewrite Hcb. simpl.
  do 8 (split; [reflexivity|]).
  assert (Hpos : (0 < len (options (Patched.base (Patched.pview pw))))%Z).
  { change (minOptions CONFIG) with 2%Z in Hm. lia. }
  set (r := currentRotation (Patched.base (Patched.pview pw))
            + randomDegrees (options (Patched.base (Patched.pview pw)))
                u1 u2 u3).
  pose proof (winnerIndex_range _ Hpos r) as Hj.
  destruct (get_in_range _ _ Hj) as [label Hget].
  exists label. rewrite (getCurrentWinner_get _ Hpos). split; [exact Hget|].
  rewrite get_nth in Hget by lia. eapply nth_error_In; eassumption.
Qed.

Lemma patched_announced_winner_witness :
  Patched.Reachable Patched.initialPWorld
  /\ spinDisabled (Patched.base (Patched.pview Patched.initialPWorld)) = false
  /\ Patched.winner
       (Patched.pview
          (Patched.commit
             (Patched.spinTimeout
                (Patched.commit
                   (Patched.launchSpin Patched.initialPWorld 0 (1 # 2) 0)))))
     = Some (js "Option 2").
Proof.
  assert (Hr : Patched.Reachable Patched.initialPWorld)
    by apply Patched.ReachInit.
  assert (Hen : spinDisabled
                  (Patched.base (Patched.pview Patched.initialPWorld)) = false)
    by reflexivity.
  split; [exact Hr|]. split; [exact Hen|].
  destruct (patched_announced_winner Patched.initialPWorld 0 (1 # 2) 0 Hr Hen)
    as (_ & _ & _ & _ & _ & _ & Hrot & Hw & _).
  rewrite Hw, Hrot. reflexivity.
Defined.
